(** * Group aliases of the identity store

    A shallow embedding of [vault/identity_store_group_aliases.go]: the
    request handlers that register, update, read and delete the aliases of
    identity groups, over the in-memory index (MemDB) and the packed
    storage of the identity store. *)

From stdpp Require Import base option list gmap strings.

Local Open Scope string_scope.
Local Open Scope list_scope.

(** ** Data model *)

(** Modelled from the spec: [identity.Alias] is declared outside this
    file.  These are the fields of an alias in the data model, the ones the
    handlers read and write. *)
Module Alias.
Record t : Type := mk {
  ID : string;
  Name : string;
  MountType : string;
  MountAccessor : string;
  GroupID : string
}.

(** [&identity.Alias{}] *)
Definition zero : t := mk "" "" "" "" "".

(** The pair the factors index is keyed on. *)
Definition factors (a : t) : string * string := (MountAccessor a, Name a).
End Alias.

(** Modelled from the spec: [identity.Group] is declared outside this
    file.  A group is an id and the ordered set of its aliases.  [A] is what
    the alias list holds: alias values in the index and in storage, pointers
    while a handler works on a clone. *)
Module Group.
Record t (A : Type) : Type := mk {
  ID : string;
  Alias : list A
}.
Arguments mk {A} _ _.
Arguments ID {A} _.
Arguments Alias {A} _.
End Group.

#[global] Instance Alias_eq_dec : EqDecision Alias.t.
Proof. solve_decision. Defined.

#[global] Instance Group_eq_dec {A} `{EqDecision A} : EqDecision (Group.t A).
Proof. solve_decision. Defined.

(** A [*identity.Alias] held by a group a handler works on.  MemDB hands
    out clones, so every alias of a fetched group is private to it
    ([Owned]); the one pointer a handler stores into a group and writes
    through afterwards is its own [groupAlias] ([Shared]). *)
Inductive AliasPtr : Type :=
| Owned (a : Alias.t)
| Shared.

Definition load (groupAlias : Alias.t) (p : AliasPtr) : Alias.t :=
  match p with
  | Owned a => a
  | Shared => groupAlias
  end.

(** Reading a group through its pointers, [groupAlias] being the current
    value of the shared object. *)
Definition deref (groupAlias : Alias.t) (g : Group.t AliasPtr) : Group.t Alias.t :=
  Group.mk (Group.ID g) (load groupAlias <$> Group.Alias g).

(** The clone MemDB returns when asked for one. *)
Definition clone (g : Group.t Alias.t) : Group.t AliasPtr :=
  Group.mk (Group.ID g) (Owned <$> Group.Alias g).

(** Modelled from the spec: the result of mount validation is declared
    outside this file: the accessor and the type of the mount. *)
Module validateMountResponse.
Record t : Type := mk {
  MountAccessor : string;
  MountType : string
}.
End validateMountResponse.

(** Modelled from the spec: [framework.FieldData] is declared outside this
    file.  It is the decoded request: the fields the caller supplied, by
    name; every field of the group-alias paths has type string, and a field
    may be absent. *)
Record FieldData : Type := { Raw : gmap string string }.

(** Modelled from the spec: [FieldData.GetOk] is not in this file.  It
    gives the value of a field and whether the request supplied it. *)
Definition GetOk (d : FieldData) (k : string) : option string := Raw d !! k.

(** Modelled from the spec: [FieldData.Get] is not in this file.  It gives
    the value of a field, the zero value of its type when the request did
    not supply it. *)
Definition Get (d : FieldData) (k : string) : string := default "" (GetOk d k).

(** Modelled from the spec: [logical.Response] and its helpers are declared
    outside this file.  A response carries named data and warnings; an
    error response is a response, told apart from a success by the [error]
    entry of its data. *)
Module logical.
Record Response : Type := mkResponse {
  Data : gmap string string;
  Warnings : list string
}.

(** [&logical.Response{}] *)
Definition empty : Response := mkResponse ∅ [].

Definition ErrorResponse (text : string) : Response :=
  mkResponse {[ "error" := text ]} [].

Definition AddWarning (r : Response) (w : string) : Response :=
  mkResponse (Data r) (Warnings r ++ [w]).

Definition IsError (r : Response) : bool :=
  bool_decide (is_Some (Data r !! "error")).
End logical.

Definition error : Type := string.

(** What a handler returns: a pointer to a [logical.Response] and an [error]. *)
Definition result : Type := option logical.Response * option error.

Definition respond (r : logical.Response) : result := (Some r, None).
Definition fail (e : error) : result := (None, Some e).
Definition userError (text : string) : result := respond (logical.ErrorResponse text).
(** [return nil, nil] *)
Definition nothing : result := (None, None).

(** The text of the error response a result carries, if it carries one. *)
Definition errorText (r : result) : option string :=
  r.1 ≫= λ resp, logical.Data resp !! "error".

(** Modelled from the spec: [IdentityStore] is declared outside this file.
    It holds the mount validator, the in-memory index and the packed store
    of groups.  [groupLock] serialises the handlers; they run here one at a
    time, so the lock has no field.  [uuids] counts the identifiers drawn
    so far. *)
Record IdentityStore : Type := mkStore {
  validateMountAccessorFunc : string → option validateMountResponse.t;
  (** MemDB: the groups table under its id index *)
  db : gmap string (Group.t Alias.t);
  (** the storage packer of groups, one item per group id *)
  groupPacker : gmap string (Group.t Alias.t);
  (** the identifiers drawn so far *)
  uuids : nat
}.

Definition set_db (i : IdentityStore) (m : gmap string (Group.t Alias.t)) : IdentityStore :=
  mkStore (validateMountAccessorFunc i) m (groupPacker i) (uuids i).

Definition set_groupPacker (i : IdentityStore) (m : gmap string (Group.t Alias.t)) : IdentityStore :=
  mkStore (validateMountAccessorFunc i) (db i) m (uuids i).

Definition set_uuids (i : IdentityStore) (n : nat) : IdentityStore :=
  mkStore (validateMountAccessorFunc i) (db i) (groupPacker i) n.

(** ** The in-memory index *)

(** The index holds groups under their id.  An alias is visible exactly
    when its owning group reflects it, so the alias indexes (by id, by
    mount accessor and name) and the group-by-alias-id index are read off
    the groups table.  A lookup does not fail. *)

(** The groups of the index. *)
Definition groups (m : gmap string (Group.t Alias.t)) : list (Group.t Alias.t) :=
  (map_to_list m).*2.

(** The aliases of the index: those of its groups. *)
Definition aliases (m : gmap string (Group.t Alias.t)) : list Alias.t :=
  groups m ≫= Group.Alias.

(** Modelled from the spec: [memDBGroupByID] is not in this file.  It is
    the index of groups by id. *)
Definition memDBGroupByID (i : IdentityStore) (groupID : string) : option (Group.t Alias.t) :=
  db i !! groupID.

(** Modelled from the spec: [memDBGroupAliasByID] is not in this file.  It
    is the index of aliases by id. *)
Definition memDBGroupAliasByID (i : IdentityStore) (aliasID : string) : option Alias.t :=
  head (filter (λ a, Alias.ID a = aliasID) (aliases (db i))).

(** Modelled from the spec: [memDBGroupAliasByFactors] is not in this file.
    It is the index of aliases by mount accessor and name. *)
Definition memDBGroupAliasByFactors (i : IdentityStore) (mountAccessor aliasName : string)
  : option Alias.t :=
  head (filter (λ a, Alias.factors a = (mountAccessor, aliasName)) (aliases (db i))).

(** Modelled from the spec: [memDBGroupByAliasID] is not in this file.  It
    is the index of groups by the id of an alias they hold. *)
Definition memDBGroupByAliasID (i : IdentityStore) (aliasID : string) : option (Group.t Alias.t) :=
  head (filter (λ g, aliasID ∈ Alias.ID <$> Group.Alias g) (groups (db i))).

(** ** The handlers *)

Section Handlers.

(** [uuid.GenerateUUID]: the n-th identifier the process draws. *)
Variable GenerateUUID : nat → string.

(** The [%q] verb of [fmt.Sprintf]: a string, quoted. *)
Variable Sprintf_q : string → string.

(** The identifier [groupID] that [pathGroupAliasIDUpdate] passes to
    [memDBGroupAliasByID]: the function binds [groupAliasID] only, so
    [groupID] is whatever the enclosing scope holds. *)
Variable groupID : string.

(** Modelled from the spec: [sanitizeGroup] is not in this file.  It
    generates an id for a newly created group and leaves an existing id
    untouched. *)
Definition sanitizeGroup {A} (i : IdentityStore) (group : Group.t A)
  : Group.t A * IdentityStore :=
  if decide (Group.ID group = "")
  then (Group.mk (GenerateUUID (uuids i)) (Group.Alias group), set_uuids i (S (uuids i)))
  else (group, i).

(** Modelled from the spec: [sanitizeGroupAlias] is not in this file.  It
    generates an id for a newly created alias and leaves an existing id
    untouched. *)
Definition sanitizeGroupAlias (i : IdentityStore) (groupAlias : Alias.t)
  : Alias.t * IdentityStore :=
  if decide (Alias.ID groupAlias = "")
  then (Alias.mk (GenerateUUID (uuids i)) (Alias.Name groupAlias)
          (Alias.MountType groupAlias) (Alias.MountAccessor groupAlias)
          (Alias.GroupID groupAlias),
        set_uuids i (S (uuids i)))
  else (groupAlias, i).

(** Modelled from the spec: [deleteAliasFromGroup] is not in this file.
    It removes the alias from the alias set of the group; aliases are
    told apart by id. *)
Definition deleteAliasFromGroup (group : Group.t AliasPtr) (groupAlias : Alias.t)
  : Group.t AliasPtr :=
  Group.mk (Group.ID group)
    (filter (λ p, Alias.ID (load groupAlias p) ≠ Alias.ID groupAlias) (Group.Alias group)).

(** Modelled from the spec: [updateAliasInGroup] is not in this file.  It
    replaces the alias within the alias set of the group: the entry with
    the id of [groupAlias] becomes the pointer [groupAlias]. *)
Definition updateAliasInGroup (group : Group.t AliasPtr) (groupAlias : Alias.t)
  : Group.t AliasPtr :=
  Group.mk (Group.ID group)
    ((λ p, if decide (Alias.ID (load groupAlias p) = Alias.ID groupAlias) then Shared else p)
       <$> Group.Alias group).

(** Modelled from the spec: [upsertGroup] is not in this file.  It writes
    the group, and on a transfer the previous group too, to the packed
    store, then commits the new state of both groups into the index. *)
Definition upsertGroup (i : IdentityStore) (group : Group.t Alias.t)
    (previousGroup : option (Group.t Alias.t)) (persist : bool) : IdentityStore :=
  let put (g : Group.t Alias.t) (m : gmap string (Group.t Alias.t)) := <[Group.ID g := g]> m in
  let putPrevious m := from_option (λ p, put p m) m previousGroup in
  let i := if persist then set_groupPacker i (putPrevious (put group (groupPacker i))) else i in
  set_db i (putPrevious (put group (db i))).

(** What the create and the update branch of
    [handleGroupAliasUpdateCommon] leave behind for its common tail: the
    group to write, the previous group of a transfer, the response so
    far. *)
Definition branch : Type :=
  result + (Group.t AliasPtr * option (Group.t AliasPtr) * logical.Response).

Definition handleGroupAliasUpdateCommon (i : IdentityStore) (d : FieldData)
    (groupAlias : option Alias.t) : result * IdentityStore :=
  (* groupAlias will be nil when a new alias is being registered; create a
     new struct in that case. *)
  let newGroupAlias := bool_decide (groupAlias = None) in
  let groupAlias := default Alias.zero groupAlias in
  (* Get entity id *)
  let groupID := Get d "group_id" in
  match (if decide (groupID ≠ "")
         then match memDBGroupByID i groupID with
              | None => inl (userError "invalid group ID")
              | Some g => inr (Some (clone g))
              end
         else inr None) with
  | inl r => (r, i)
  | inr group =>
    (* Get group alias name *)
    let groupAliasName := Get d "name" in
    if decide (groupAliasName = "") then (userError "missing alias name", i) else
    let mountAccessor := Get d "mount_accessor" in
    if decide (mountAccessor = "") then (userError "missing mount_accessor", i) else
    match validateMountAccessorFunc i mountAccessor with
    | None => (userError ("invalid mount accessor " +:+ Sprintf_q mountAccessor), i)
    | Some mountValidationResp =>
      let groupAliasByFactors :=
        memDBGroupAliasByFactors i
          (validateMountResponse.MountAccessor mountValidationResp) groupAliasName in
      let resp := logical.empty in
      let chosen : branch :=
        if newGroupAlias then
          match groupAliasByFactors with
          | Some _ =>
            inl (userError "combination of mount and group alias name is already in use")
          | None =>
            (* If this is an alias being tied to a non-existent group,
               create a new group for it. *)
            match group with
            | None => inr (Group.mk "" [Shared], None, resp)
            | Some group => inr (Group.mk (Group.ID group) [Shared], None, resp)
            end
          end
        else
          (* Verify that the combination of group alias name and mount is
             not already tied to a different alias *)
          if match groupAliasByFactors with
             | Some a => bool_decide (Alias.ID a ≠ Alias.ID groupAlias)
             | None => false
             end
          then inl (userError "combination of mount and group alias name is already in use")
          else
            (* Fetch the group to which the alias is tied to *)
            match memDBGroupByAliasID i (Alias.ID groupAlias) with
            | None => inl (fail "group alias is not associated with a group")
            | Some existingGroup =>
              let existingGroup := clone existingGroup in
              match group with
              | Some group =>
                if decide (Group.ID group ≠ Group.ID existingGroup) then
                  (* Alias should be transferred from 'existingGroup' to 'group' *)
                  let existingGroup := deleteAliasFromGroup existingGroup groupAlias in
                  let previousGroup := existingGroup in
                  let group := Group.mk (Group.ID group) (Group.Alias group ++ [Shared]) in
                  let resp := logical.AddWarning resp
                    ("group alias is being transferred from group "
                       +:+ Sprintf_q (Group.ID existingGroup)
                       +:+ " to " +:+ Sprintf_q (Group.ID group)) in
                  inr (group, Some previousGroup, resp)
                else
                  (* Update group with modified alias *)
                  inr (updateAliasInGroup existingGroup groupAlias, None, resp)
              | None =>
                inr (updateAliasInGroup existingGroup groupAlias, None, resp)
              end
            end
      in
      match chosen with
      | inl r => (r, i)
      | inr (group, previousGroup, resp) =>
        (* ID creation and other validations *)
        let '(group, i) := sanitizeGroup i group in
        (* Update the fields *)
        let groupAlias :=
          Alias.mk (Alias.ID groupAlias) groupAliasName
            (validateMountResponse.MountType mountValidationResp)
            (validateMountResponse.MountAccessor mountValidationResp)
            (Group.ID group) in
        (* ID creation and other validations *)
        let '(groupAlias, i) := sanitizeGroupAlias i groupAlias in
        (* Index group and its alias in MemDB and persist group along with
           alias in storage. *)
        let i := upsertGroup i (deref groupAlias group) (deref groupAlias <$> previousGroup) true in
        (* Return IDs of both group alias and entity *)
        let resp := logical.mkResponse
          {[ "id" := Alias.ID groupAlias; "group_id" := Group.ID group ]}
          (logical.Warnings resp) in
        (respond resp, i)
      end
    end
  end.

Definition pathGroupAliasIDUpdate (i : IdentityStore) (d : FieldData)
  : result * IdentityStore :=
  let groupAliasID := Get d "id" in
  if decide (groupAliasID = "") then (userError "empty group alias ID", i) else
  match memDBGroupAliasByID i groupID with
  | None => (userError "invalid group alias ID", i)
  | Some groupAlias => handleGroupAliasUpdateCommon i d (Some groupAlias)
  end.

Definition pathGroupAliasRegister (i : IdentityStore) (d : FieldData)
  : result * IdentityStore :=
  match GetOk d "id" with
  | Some _ => pathGroupAliasIDUpdate i d
  | None => handleGroupAliasUpdateCommon i d None
  end.

(** Modelled from the spec: [handleAliasReadCommon] is not in this file.
    It returns a flattened view of the public fields of the alias, or
    nothing when there is no alias. *)
Definition handleAliasReadCommon (alias : option Alias.t) : result :=
  match alias with
  | None => nothing
  | Some a =>
    respond (logical.mkResponse
      {[ "id" := Alias.ID a;
         "name" := Alias.Name a;
         "mount_accessor" := Alias.MountAccessor a;
         "mount_type" := Alias.MountType a;
         "group_id" := Alias.GroupID a ]} [])
  end.

(** pathGroupAliasIDRead returns the properties of an alias for a given
    alias ID *)
Definition pathGroupAliasIDRead (i : IdentityStore) (d : FieldData) : result :=
  let groupAliasID := Get d "id" in
  if decide (groupAliasID = "") then userError "empty group alias id" else
  handleAliasReadCommon (memDBGroupAliasByID i groupAliasID).

(** Modelled from the spec: [deleteGroupAlias] is not in this file.  It
    removes the alias from the alias set of its owning group, persists
    the owning group and so removes the alias from the index; deleting
    an id that denotes no alias is a success that does nothing. *)
Definition deleteGroupAlias (i : IdentityStore) (id : string) : option error * IdentityStore :=
  match memDBGroupAliasByID i id with
  | None => (None, i)
  | Some alias =>
    match memDBGroupByAliasID i (Alias.ID alias) with
    | None => (Some "group alias is not associated with a group", i)
    | Some group =>
      let group := deleteAliasFromGroup (clone group) alias in
      (None, upsertGroup i (deref alias group) None true)
    end
  end.

(** pathGroupAliasIDDelete deletes the group's alias for a given group
    alias ID *)
Definition pathAliasIDDelete (i : IdentityStore) (d : FieldData) : result * IdentityStore :=
  let groupAliasID := Get d "id" in
  if decide (groupAliasID = "") then (userError "missing group alias ID", i) else
  let '(err, i) := deleteGroupAlias i groupAliasID in
  ((None, err), i).

End Handlers.

(** ** The invariant of the index *)

(** Groups sit under their own, non-empty id; alias ids are non-empty and
    pairwise distinct; so are the pairs of mount accessor and name. *)
Record db_ok (m : gmap string (Group.t Alias.t)) : Prop := {
  ok_key : ∀ k g, m !! k = Some g → Group.ID g = k ∧ k ≠ "";
  ok_ids : NoDup (Alias.ID <$> aliases m);
  ok_ids_nonempty : "" ∉ Alias.ID <$> aliases m;
  ok_factors : NoDup (Alias.factors <$> aliases m)
}.

(** [m'] holds the alias [a'] and, besides it, only aliases of [m], none of
    which has the id or the factors of [a']. *)
Definition replaces (m m' : gmap string (Group.t Alias.t)) (a' : Alias.t) : Prop :=
  ∃ rest, aliases m' ≡ₚ a' :: rest ∧ rest ⊆+ aliases m ∧
    ∀ b, b ∈ rest → Alias.ID b ≠ Alias.ID a' ∧ Alias.factors b ≠ Alias.factors a'.

Section Invariants.

(** The parameters of the handlers, as above. *)
Variable GenerateUUID : nat → string.
Variable Sprintf_q : string → string.
Variable groupID : string.

(** The identifiers still to be drawn denote nothing in the index. *)
Definition fresh (i : IdentityStore) : Prop :=
  ∀ n, (uuids i ≤ n)%nat →
    db i !! GenerateUUID n = None ∧ GenerateUUID n ∉ Alias.ID <$> aliases (db i).

Definition wf (i : IdentityStore) : Prop := db_ok (db i) ∧ fresh i.

(** What a successful registration leaves behind: the alias [a'] with the
    name and the resolved mount of the request, in an index that holds,
    besides it, only aliases it held before; the response carries its id. *)
Definition registered (i i' : IdentityStore) (d : FieldData) (r : result) (a' : Alias.t) : Prop :=
  (∃ mnt, validateMountAccessorFunc i (Get d "mount_accessor") = Some mnt ∧
          Alias.MountAccessor a' = validateMountResponse.MountAccessor mnt ∧
          Alias.MountType a' = validateMountResponse.MountType mnt) ∧
  Alias.Name a' = Get d "name" ∧ Get d "name" ≠ "" ∧
  Alias.ID a' ≠ "" ∧
  replaces (db i) (db i') a' ∧
  (∃ ws, r = respond (logical.mkResponse
           {[ "id" := Alias.ID a'; "group_id" := Alias.GroupID a' ]} ws)) ∧
  validateMountAccessorFunc i' = validateMountAccessorFunc i ∧
  wf i'.

(** Where the alias of a registration comes from: a new alias carries an id
    the index did not hold, an updated alias keeps its id, which the index
    held. *)
Definition origin (i : IdentityStore) (groupAlias : option Alias.t) (a' : Alias.t) : Prop :=
  match groupAlias with
  | None => Alias.ID a' ∉ Alias.ID <$> aliases (db i)
  | Some a => Alias.ID a' = Alias.ID a ∧ Alias.ID a ∈ Alias.ID <$> aliases (db i)
  end.

(** A handler that stops early returns an error and the store as it was. *)
Definition rejected (i i' : IdentityStore) (r : result) : Prop :=
  i' = i ∧ ((∃ text, r = userError text) ∨ (∃ e, r = fail e)).

(** The store after a sequence of register requests. *)
Definition registerAll (i : IdentityStore) (ds : list FieldData) : IdentityStore :=
  foldl (λ i d, (pathGroupAliasRegister GenerateUUID Sprintf_q groupID i d).2) i ds.

(** A request that passes the validation of
    [handleGroupAliasUpdateCommon]: its group, if it names one, exists; it
    has a name; its mount accessor resolves to [mnt]. *)
Definition validated (i : IdentityStore) (d : FieldData) (mnt : validateMountResponse.t) : Prop :=
  (Get d "group_id" = "" ∨ is_Some (memDBGroupByID i (Get d "group_id"))) ∧
  Get d "name" ≠ "" ∧
  Get d "mount_accessor" ≠ "" ∧
  validateMountAccessorFunc i (Get d "mount_accessor") = Some mnt.

End Invariants.

(** ** A small world to run the handlers in *)

Module Scenario.

(** Identifiers [u], [ui], [uii], ... *)
Definition uuid (n : nat) : string := "u" +:+ Nat.iter n (λ s, "i" +:+ s) "".

Definition quote (s : string) : string := "'" +:+ s +:+ "'".

(** What [groupID] holds in the scope of [pathGroupAliasIDUpdate], where a
    closed run needs a value for it. *)
Definition groupID : string := "".

(** One mount, [auth_userpass_1234], of type [userpass]. *)
Definition validate (mountAccessor : string) : option validateMountResponse.t :=
  if decide (mountAccessor = "auth_userpass_1234")
  then Some (validateMountResponse.mk mountAccessor "userpass")
  else None.

Definition request (fields : list (string * string)) : FieldData :=
  {| Raw := list_to_map fields |}.

Definition register := pathGroupAliasRegister uuid quote groupID.

Definition empty_store : IdentityStore := mkStore validate ∅ ∅ 0.

Definition alice : Alias.t := Alias.mk "a1" "alice" "userpass" "auth_userpass_1234" "g1".
Definition g1 : Group.t Alias.t := Group.mk "g1" [alice].
Definition g2 : Group.t Alias.t := Group.mk "g2" [].

(** Group [g1] with the alias [alice]. *)
Definition store1 : IdentityStore :=
  mkStore validate {[ "g1" := g1 ]} {[ "g1" := g1 ]} 0.

(** Group [g1] with the alias [alice], and the empty group [g2]. *)
Definition store2 : IdentityStore :=
  mkStore validate {[ "g1" := g1; "g2" := g2 ]} {[ "g1" := g1; "g2" := g2 ]} 0.

Definition register_alice : FieldData :=
  request [("name", "alice"); ("mount_accessor", "auth_userpass_1234")].

Definition register_bob_in_g1 : FieldData :=
  request [("name", "bob"); ("mount_accessor", "auth_userpass_1234"); ("group_id", "g1")].

End Scenario.

(** The invariant of the index as a check that runs. *)
Definition db_okb (m : gmap string (Group.t Alias.t)) : bool :=
  bool_decide (map_Forall (λ k g, Group.ID g = k ∧ k ≠ "") m) &&
  bool_decide (NoDup (Alias.ID <$> aliases m)) &&
  bool_decide ("" ∉ Alias.ID <$> aliases m) &&
  bool_decide (NoDup (Alias.factors <$> aliases m)).

(** ** Listing *)

(** Modelled from the spec: [logical.ListResponse] is declared outside this
    file.  The response of a list operation carries the ordered sequence of
    the keys it was given. *)
Record ListResponse : Type := mkListResponse { Keys : list string }.

(** What the list handler returns: a pointer to a list response and an
    [error]. *)
Definition listResult : Type := option ListResponse * option error.

(** The keys a list result carries. *)
Definition listedKeys (r : listResult) : list string :=
  from_option Keys [] r.1.

(** Modelled from the spec: [memDBGroupAliases] is not in this file.  It
    gives an iterator over the aliases the index holds at the moment the
    iterator is taken; the iterator is the list of the items it has still
    to give.  The order is the one of the index. *)
Definition memDBGroupAliases (i : IdentityStore) : list Alias.t := aliases (db i).

(** The loop of [pathGroupAliasIDList]: [iter.Next()] until it gives nil,
    the id of each item appended to [groupAliasIDs]. *)
Fixpoint drain (iter : list Alias.t) (groupAliasIDs : list string) : list string :=
  match iter with
  | [] => groupAliasIDs
  | raw :: iter => drain iter (groupAliasIDs ++ [Alias.ID raw])
  end.

(** pathGroupAliasIDList lists the IDs of all the valid group aliases in
    the identity store *)
Definition pathGroupAliasIDList (i : IdentityStore) (d : FieldData) : listResult :=
  let iter := memDBGroupAliases i in
  let groupAliasIDs := drain iter [] in
  (Some (mkListResponse groupAliasIDs), None).

(** ** Ownership and outcomes *)

(** Every alias carries, in [GroupID], the id of the group that holds it. *)
Definition owner_ok (m : gmap string (Group.t Alias.t)) : Prop :=
  ∀ k g a, m !! k = Some g → a ∈ Group.Alias g → Alias.GroupID a = Group.ID g.

(** Two stores that differ at most in the count of identifiers drawn. *)
Definition same_data (i0 i : IdentityStore) : Prop :=
  validateMountAccessorFunc i0 = validateMountAccessorFunc i ∧
  db i0 = db i ∧ groupPacker i0 = groupPacker i.

Section Outcomes.

Variable GenerateUUID : nat → string.
Variable Sprintf_q : string → string.

(** The warning of a transfer from the group [from] to the group [to]. *)
Definition transferWarning (from to : string) : string :=
  "group alias is being transferred from group " +:+ Sprintf_q from
    +:+ " to " +:+ Sprintf_q to.

(** The alias [handleGroupAliasUpdateCommon] writes for a request: the name
    of the request and the mount it resolved, under the id [id] in the
    group [group]. *)
Definition written (d : FieldData) (mnt : validateMountResponse.t) (id group : string) : Alias.t :=
  Alias.mk id (Get d "name") (validateMountResponse.MountType mnt)
    (validateMountResponse.MountAccessor mnt) group.

(** The response of a success. *)
Definition registeredResponse (id group : string) (warnings : list string) : result :=
  respond (logical.mkResponse {[ "id" := id; "group_id" := group ]} warnings).

(** The four ways [handleGroupAliasUpdateCommon] writes, in a consistent
    store: a new alias in a new group, a new alias in a named group, an
    alias updated within its group, an alias transferred to a named
    group. *)
Inductive commits (i : IdentityStore) (d : FieldData)
  : option Alias.t → result → IdentityStore → Prop :=
| commits_new_group (mnt : validateMountResponse.t) :
    Get d "group_id" = "" →
    validateMountAccessorFunc i (Get d "mount_accessor") = Some mnt →
    db i !! GenerateUUID (uuids i) = None →
    let G := GenerateUUID (uuids i) in
    let a' := written d mnt (GenerateUUID (S (uuids i))) G in
    commits i d None (registeredResponse (Alias.ID a') G [])
      (upsertGroup (set_uuids i (S (S (uuids i)))) (Group.mk G [a']) None true)
| commits_in_group (mnt : validateMountResponse.t) (G : Group.t Alias.t) :
    Get d "group_id" = Group.ID G →
    db i !! Group.ID G = Some G →
    validateMountAccessorFunc i (Get d "mount_accessor") = Some mnt →
    let a' := written d mnt (GenerateUUID (uuids i)) (Group.ID G) in
    commits i d None (registeredResponse (Alias.ID a') (Group.ID G) [])
      (upsertGroup (set_uuids i (S (uuids i))) (Group.mk (Group.ID G) [a']) None true)
| commits_in_place (mnt : validateMountResponse.t) (a : Alias.t) (E : Group.t Alias.t) :
    (Get d "group_id" = "" ∨ Get d "group_id" = Group.ID E) →
    db i !! Group.ID E = Some E →
    Alias.ID a ∈ Alias.ID <$> Group.Alias E →
    validateMountAccessorFunc i (Get d "mount_accessor") = Some mnt →
    let a' := written d mnt (Alias.ID a) (Group.ID E) in
    commits i d (Some a) (registeredResponse (Alias.ID a) (Group.ID E) [])
      (upsertGroup i
         (Group.mk (Group.ID E)
            ((λ b, if decide (Alias.ID b = Alias.ID a') then a' else b) <$> Group.Alias E))
         None true)
| commits_transfer (mnt : validateMountResponse.t) (a : Alias.t) (E G : Group.t Alias.t) :
    Get d "group_id" = Group.ID G →
    db i !! Group.ID G = Some G →
    db i !! Group.ID E = Some E →
    Group.ID G ≠ Group.ID E →
    Alias.ID a ∈ Alias.ID <$> Group.Alias E →
    validateMountAccessorFunc i (Get d "mount_accessor") = Some mnt →
    let a' := written d mnt (Alias.ID a) (Group.ID G) in
    commits i d (Some a)
      (registeredResponse (Alias.ID a) (Group.ID G)
         [transferWarning (Group.ID E) (Group.ID G)])
      (upsertGroup i
         (Group.mk (Group.ID G) (Group.Alias G ++ [a']))
         (Some (Group.mk (Group.ID E)
                  (filter (λ b, Alias.ID b ≠ Alias.ID a) (Group.Alias E))))
         true).

End Outcomes.

(** * Proofs *)

(** ** The index as a list of aliases *)

Section Lists.
Context {A : Type}.

Lemma head_filter_Some (P : A → Prop) `{∀ x, Decision (P x)} (l : list A) (x : A) :
  head (filter P l) = Some x → P x ∧ x ∈ l.
Proof.
  intros Hh. apply head_Some_elem_of in Hh.
  by apply list_elem_of_filter in Hh.
Qed.

Lemma head_filter_None (P : A → Prop) `{∀ x, Decision (P x)} (l : list A) :
  head (filter P l) = None ↔ ∀ x, x ∈ l → ¬ P x.
Proof.
  rewrite head_None. split.
  - intros Hnil x Hx HP.
    assert (x ∈ filter P l) as Hin by (apply list_elem_of_filter; done).
    rewrite Hnil in Hin. by apply not_elem_of_nil in Hin.
  - intros Hall. apply elem_of_nil_inv. intros x Hx.
    apply list_elem_of_filter in Hx as [HP Hx]. by apply (Hall x).
Qed.

Lemma head_filter_is_Some (P : A → Prop) `{∀ x, Decision (P x)} (l : list A) (x : A) :
  x ∈ l → P x → is_Some (head (filter P l)).
Proof.
  intros Hx HP. destruct (head (filter P l)) eqn:Hh; [by eexists|].
  by destruct (proj1 (head_filter_None P l) Hh x Hx).
Qed.

(** Two members of a list whose keys are distinct are equal when their
    keys are. *)
Lemma NoDup_fmap_elem_inj {K : Type} (f : A → K) (l : list A) (x y : A) :
  NoDup (f <$> l) → x ∈ l → y ∈ l → f x = f y → x = y.
Proof.
  induction l as [|z l IH]; csimpl; intros Hnd Hx Hy Hf.
  - by apply not_elem_of_nil in Hx.
  - apply NoDup_cons in Hnd as [Hz Hnd].
    apply elem_of_cons in Hx as [->|Hx]; apply elem_of_cons in Hy as [->|Hy]; auto.
    + destruct Hz. rewrite Hf. by apply list_elem_of_fmap_2.
    + destruct Hz. rewrite <- Hf. by apply list_elem_of_fmap_2.
Qed.

(** A unique index returns the member that carries the key. *)
Lemma head_filter_key {K : Type} `{EqDecision K} (f : A → K) (l : list A) (x : A) :
  NoDup (f <$> l) → x ∈ l → head (filter (λ y, f y = f x) l) = Some x.
Proof.
  intros Hnd Hx.
  destruct (head_filter_is_Some (λ y, f y = f x) l x Hx eq_refl) as [y Hy].
  rewrite Hy. f_equal.
  apply head_filter_Some in Hy as [Hf Hy].
  by apply (NoDup_fmap_elem_inj f l).
Qed.

Lemma submseteq_NoDup (l k : list A) : l ⊆+ k → NoDup k → NoDup l.
Proof.
  intros [k' Hk]%submseteq_Permutation. rewrite Hk.
  by intros [? _]%NoDup_app.
Qed.

(** Replacing, in a list with distinct keys, the member that carries a
    key: up to order, the new member in front of the others. *)
Lemma replace_key_Permutation {K : Type} `{EqDecision K} (f : A → K) (l : list A)
    (k : K) (x' : A) :
  NoDup (f <$> l) → k ∈ f <$> l →
  (λ y, if decide (f y = k) then x' else y) <$> l ≡ₚ x' :: filter (λ y, f y ≠ k) l.
Proof.
  induction l as [|z l IH]; csimpl; intros Hnd Hk.
  - by apply not_elem_of_nil in Hk.
  - apply NoDup_cons in Hnd as [Hz Hnd].
    rewrite filter_cons. destruct (decide (f z = k)) as [<-|Hne].
    + rewrite decide_False by (by intros []).
      f_equiv. clear IH Hk Hnd.
      induction l as [|y l IH]; csimpl; [done|].
      rewrite filter_cons. csimpl in Hz.
      apply not_elem_of_cons in Hz as [Hy Hz].
      rewrite decide_False by done. rewrite decide_True by done.
      f_equiv. by apply IH.
    + rewrite decide_True by done.
      apply elem_of_cons in Hk as [->|Hk]; [done|].
      rewrite IH by done. apply Permutation_swap.
Qed.
End Lists.

Section Index.
Implicit Types m : gmap string (Group.t Alias.t).

Lemma groups_insert m k g : groups (<[k:=g]> m) ≡ₚ g :: groups (delete k m).
Proof.
  unfold groups. rewrite <- (insert_delete_eq m).
  rewrite map_to_list_insert by apply lookup_delete_eq. done.
Qed.

Lemma groups_lookup m k g : m !! k = Some g → groups m ≡ₚ g :: groups (delete k m).
Proof.
  intros Hk. unfold groups. by rewrite <- (map_to_list_delete m k g Hk).
Qed.

Lemma elem_of_groups m g : g ∈ groups m ↔ ∃ k, m !! k = Some g.
Proof.
  unfold groups. rewrite list_elem_of_fmap. split.
  - intros [[k g'] [-> Hin]]. exists k. by apply elem_of_map_to_list.
  - intros [k Hk]. exists (k, g). split; [done|]. by apply elem_of_map_to_list.
Qed.

Lemma aliases_insert m k g :
  aliases (<[k:=g]> m) ≡ₚ Group.Alias g ++ aliases (delete k m).
Proof. unfold aliases. by rewrite groups_insert. Qed.

Lemma aliases_lookup m k g :
  m !! k = Some g → aliases m ≡ₚ Group.Alias g ++ aliases (delete k m).
Proof. intros Hk. unfold aliases. by rewrite (groups_lookup m k g Hk). Qed.

Lemma elem_of_aliases m a :
  a ∈ aliases m ↔ ∃ g, g ∈ groups m ∧ a ∈ Group.Alias g.
Proof.
  unfold aliases. rewrite list_elem_of_bind.
  split; intros (g & ? & ?); by exists g.
Qed.

Lemma aliases_empty : aliases ∅ = [].
Proof. unfold aliases, groups. by rewrite map_to_list_empty. Qed.
End Index.


Section Replaces.
Implicit Types m : gmap string (Group.t Alias.t).

Lemma aliases_delete_submseteq m k : aliases (delete k m) ⊆+ aliases m.
Proof.
  destruct (m !! k) as [g|] eqn:Hk.
  - rewrite (aliases_lookup m k g Hk). by apply submseteq_inserts_l.
  - by rewrite delete_id.
Qed.

Lemma NoDup_fmap_cons_rest {K} (f : Alias.t → K) (old new rest : list Alias.t) a' :
  NoDup (f <$> old) → new ≡ₚ a' :: rest → rest ⊆+ old →
  (∀ b, b ∈ rest → f b ≠ f a') → NoDup (f <$> new).
Proof.
  intros Hold Hnew Hrest Hne. rewrite Hnew. csimpl. apply NoDup_cons. split.
  - intros (b & Hb & Hin)%list_elem_of_fmap. by apply (Hne b).
  - apply (submseteq_NoDup _ (f <$> old)); [by apply fmap_submseteq|done].
Qed.

Lemma replaces_elem_of m m' a' : replaces m m' a' → a' ∈ aliases m'.
Proof. intros (rest & Hp & _). rewrite Hp. apply elem_of_cons. by left. Qed.

Lemma replaces_ids m m' a' x :
  replaces m m' a' → x ∈ Alias.ID <$> aliases m' →
  x = Alias.ID a' ∨ x ∈ Alias.ID <$> aliases m.
Proof.
  intros (rest & Hp & Hsub & _). rewrite Hp. csimpl.
  intros [->|Hx]%elem_of_cons; [by left|right].
  eapply elem_of_submseteq; [done|]. by apply fmap_submseteq.
Qed.

Lemma db_ok_replaces m m' a' :
  db_ok m → replaces m m' a' → Alias.ID a' ≠ "" →
  (∀ k g, m' !! k = Some g → Group.ID g = k ∧ k ≠ "") → db_ok m'.
Proof.
  intros [Hkey Hids Hne Hfac] Hrep Hid Hkey'. split; [done|..].
  - destruct Hrep as (rest & Hp & Hsub & Hrest).
    apply (NoDup_fmap_cons_rest _ (aliases m) _ rest a'); [done..|].
    intros b Hb. by destruct (Hrest b Hb).
  - intros Hin. apply (replaces_ids m m' a') in Hin as [?|?]; done.
  - destruct Hrep as (rest & Hp & Hsub & Hrest).
    apply (NoDup_fmap_cons_rest _ (aliases m) _ rest a'); [done..|].
    intros b Hb. by destruct (Hrest b Hb).
Qed.

(** A group whose alias set is the new alias alone, new or in place of
    an earlier group. *)
Lemma replaces_singleton m k k' a' :
  (∀ b, b ∈ aliases m → Alias.ID b ≠ Alias.ID a' ∧ Alias.factors b ≠ Alias.factors a') →
  replaces m (<[k := Group.mk k' [a']]> m) a'.
Proof.
  intros Hall. exists (aliases (delete k m)). split_and!.
  - by rewrite aliases_insert.
  - apply aliases_delete_submseteq.
  - intros b Hb. apply Hall. eapply elem_of_submseteq; [done|].
    apply aliases_delete_submseteq.
Qed.

(** The owner of an alias id owns it alone. *)
Lemma owner_others m k E x b :
  NoDup (Alias.ID <$> aliases m) → m !! k = Some E →
  x ∈ Alias.ID <$> Group.Alias E → b ∈ aliases (delete k m) → Alias.ID b ≠ x.
Proof.
  intros Hnd Hk Hx Hb <-.
  rewrite (aliases_lookup m k E Hk), fmap_app in Hnd.
  apply NoDup_app in Hnd as (_ & Hdisj & _).
  apply (Hdisj (Alias.ID b) Hx). by apply list_elem_of_fmap_2.
Qed.

(** An alias updated within its group. *)
Lemma replaces_in_place m k k' E a' :
  NoDup (Alias.ID <$> aliases m) → m !! k = Some E →
  Alias.ID a' ∈ Alias.ID <$> Group.Alias E →
  (∀ b, b ∈ aliases m → Alias.ID b ≠ Alias.ID a' → Alias.factors b ≠ Alias.factors a') →
  replaces m
    (<[k := Group.mk k'
        ((λ b, if decide (Alias.ID b = Alias.ID a') then a' else b) <$> Group.Alias E)]> m) a'.
Proof.
  intros Hnd Hk Hx Hfac.
  pose proof Hnd as Hnd'.
  rewrite (aliases_lookup m k E Hk), fmap_app in Hnd'.
  apply NoDup_app in Hnd' as (HndE & _ & _).
  exists (filter (λ b, Alias.ID b ≠ Alias.ID a') (Group.Alias E) ++ aliases (delete k m)).
  assert (filter (λ b, Alias.ID b ≠ Alias.ID a') (Group.Alias E) ++ aliases (delete k m)
          ⊆+ aliases m) as Hsub.
  { rewrite (aliases_lookup m k E Hk). apply submseteq_skips_r.
    apply sublist_submseteq, sublist_filter. }
  split_and!; [|done|].
  - rewrite aliases_insert. simpl.
    by rewrite (replace_key_Permutation Alias.ID _ _ a' HndE Hx).
  - intros b Hb.
    assert (Alias.ID b ≠ Alias.ID a') as Hne.
    { apply elem_of_app in Hb as [Hb|Hb].
      - by apply list_elem_of_filter in Hb as [? _].
      - by apply (owner_others m k E). }
    split; [done|]. apply Hfac; [|done]. by eapply elem_of_submseteq.
Qed.

(** An alias moved from its group to another one. *)
Lemma replaces_transfer m kE kE' kG kG' E G a' :
  NoDup (Alias.ID <$> aliases m) → m !! kE = Some E → m !! kG = Some G → kE ≠ kG →
  Alias.ID a' ∈ Alias.ID <$> Group.Alias E →
  (∀ b, b ∈ aliases m → Alias.ID b ≠ Alias.ID a' → Alias.factors b ≠ Alias.factors a') →
  replaces m
    (<[kE := Group.mk kE' (filter (λ b, Alias.ID b ≠ Alias.ID a') (Group.Alias E))]>
       (<[kG := Group.mk kG' (Group.Alias G ++ [a'])]> m)) a'.
Proof.
  intros Hnd HE HG Hne Hx Hfac.
  assert (delete kE m !! kG = Some G) as HG' by (by rewrite lookup_delete_ne).
  pose proof (aliases_lookup m kE E HE) as Hm.
  rewrite (aliases_lookup _ kG G HG') in Hm.
  set (R := aliases (delete kG (delete kE m))) in *.
  exists (filter (λ b, Alias.ID b ≠ Alias.ID a') (Group.Alias E) ++ Group.Alias G ++ R).
  assert (filter (λ b, Alias.ID b ≠ Alias.ID a') (Group.Alias E) ++ Group.Alias G ++ R
          ⊆+ aliases m) as Hsub.
  { rewrite Hm. apply submseteq_skips_r. apply sublist_submseteq, sublist_filter. }
  split_and!; [|done|].
  - rewrite aliases_insert. simpl.
    rewrite delete_insert_ne by done. rewrite aliases_insert. simpl. fold R.
    rewrite <- !app_assoc. simpl.
    by rewrite <- Permutation_middle, <- Permutation_middle.
  - intros b Hb.
    assert (Alias.ID b ≠ Alias.ID a') as Hid.
    { apply elem_of_app in Hb as [Hb|Hb].
      - by apply list_elem_of_filter in Hb as [? _].
      - apply (owner_others m kE E); [done..|].
        rewrite (aliases_lookup _ kG G HG'). done. }
    split; [done|]. apply Hfac; [|done]. by eapply elem_of_submseteq.
Qed.
End Replaces.

Section Pointers.

Lemma deref_clone a g : deref a (clone g) = g.
Proof.
  destruct g as [k l]. unfold deref, clone. simpl. f_equal.
  rewrite <- list_fmap_compose. rewrite <- (list_fmap_id l) at 2.
  by apply list_fmap_ext.
Qed.

Lemma deref_updateAliasInGroup E a a' :
  Alias.ID a' = Alias.ID a →
  deref a' (updateAliasInGroup (clone E) a) =
  Group.mk (Group.ID E)
    ((λ b, if decide (Alias.ID b = Alias.ID a') then a' else b) <$> Group.Alias E).
Proof.
  intros Hid. unfold deref, updateAliasInGroup, clone. simpl. f_equal.
  rewrite <- !list_fmap_compose. apply list_fmap_ext. intros _ b _. simpl.
  rewrite Hid. by destruct (decide (Alias.ID b = Alias.ID a)).
Qed.

Lemma deref_deleteAliasFromGroup E a a' :
  deref a' (deleteAliasFromGroup (clone E) a) =
  Group.mk (Group.ID E) (filter (λ b, Alias.ID b ≠ Alias.ID a) (Group.Alias E)).
Proof.
  unfold deref, deleteAliasFromGroup, clone. simpl. f_equal.
  induction (Group.Alias E) as [|b l IH]; csimpl; [done|].
  rewrite !filter_cons. simpl.
  destruct (decide (Alias.ID b ≠ Alias.ID a)); csimpl; by rewrite IH.
Qed.

Lemma deref_append k l a' :
  deref a' (Group.mk k ((Owned <$> l) ++ [Shared])) = Group.mk k (l ++ [a']).
Proof.
  unfold deref. simpl. f_equal. rewrite fmap_app. simpl. f_equal.
  rewrite <- list_fmap_compose. rewrite <- (list_fmap_id l) at 2.
  by apply list_fmap_ext.
Qed.

End Pointers.

(** ** What the lookups tell *)

Section Lookups.
Implicit Types i : IdentityStore.

Lemma memDBGroupAliasByID_Some i x a :
  memDBGroupAliasByID i x = Some a → Alias.ID a = x ∧ a ∈ aliases (db i).
Proof. apply (head_filter_Some (λ a, Alias.ID a = x)). Qed.

Lemma memDBGroupAliasByID_None i x :
  memDBGroupAliasByID i x = None ↔ x ∉ Alias.ID <$> aliases (db i).
Proof.
  unfold memDBGroupAliasByID. rewrite head_filter_None, list_elem_of_fmap. split.
  - intros Hall (a & -> & Ha). by apply (Hall a).
  - intros Hno a Ha Hid. apply Hno. by exists a.
Qed.

Lemma memDBGroupAliasByID_unique i a :
  NoDup (Alias.ID <$> aliases (db i)) → a ∈ aliases (db i) →
  memDBGroupAliasByID i (Alias.ID a) = Some a.
Proof. intros. by apply (head_filter_key Alias.ID). Qed.

Lemma memDBGroupAliasByFactors_Some i acc name a :
  memDBGroupAliasByFactors i acc name = Some a →
  Alias.factors a = (acc, name) ∧ a ∈ aliases (db i).
Proof. apply (head_filter_Some (λ a, Alias.factors a = (acc, name))). Qed.

Lemma memDBGroupAliasByFactors_None i acc name :
  memDBGroupAliasByFactors i acc name = None ↔
  ∀ b, b ∈ aliases (db i) → Alias.factors b ≠ (acc, name).
Proof. apply (head_filter_None (λ a, Alias.factors a = (acc, name))). Qed.


(** The check of the update path: when the factors are free or held by
    the alias [x] itself, no other alias holds them. *)
Lemma factors_free_but i acc name x :
  NoDup (Alias.factors <$> aliases (db i)) →
  match memDBGroupAliasByFactors i acc name with
  | Some a => bool_decide (Alias.ID a ≠ x)
  | None => false
  end = false →
  ∀ b, b ∈ aliases (db i) → Alias.ID b ≠ x → Alias.factors b ≠ (acc, name).
Proof.
  intros Hnd Hchk b Hb Hid Hfac.
  destruct (memDBGroupAliasByFactors i acc name) as [f|] eqn:Hf.
  - apply bool_decide_eq_false in Hchk. apply Hchk.
    apply memDBGroupAliasByFactors_Some in Hf as [Hff Hfin].
    cut (b = f); [by intros <-|].
    apply (NoDup_fmap_elem_inj Alias.factors (aliases (db i))); congruence.
  - by apply (proj1 (memDBGroupAliasByFactors_None i acc name) Hf b).
Qed.

Lemma memDBGroupByAliasID_Some i x E :
  memDBGroupByAliasID i x = Some E →
  x ∈ Alias.ID <$> Group.Alias E ∧ ∃ k, db i !! k = Some E.
Proof.
  intros [Hx HE]%head_filter_Some. split; [done|]. by apply elem_of_groups.
Qed.

(** An alias of the index has an owning group. *)
Lemma memDBGroupByAliasID_is_Some i a :
  a ∈ aliases (db i) → is_Some (memDBGroupByAliasID i (Alias.ID a)).
Proof.
  intros (g & Hg & Ha)%elem_of_aliases.
  apply (head_filter_is_Some _ _ g); [done|]. by apply list_elem_of_fmap_2.
Qed.

Lemma owned_id_elem_of i k E x :
  db i !! k = Some E → x ∈ Alias.ID <$> Group.Alias E → x ∈ Alias.ID <$> aliases (db i).
Proof.
  intros Hk Hx.
  rewrite (aliases_lookup _ k E Hk), fmap_app. apply elem_of_app. by left.
Qed.

Lemma owned_id_nonempty i k E x :
  db_ok (db i) → db i !! k = Some E → x ∈ Alias.ID <$> Group.Alias E → x ≠ "".
Proof.
  intros Hok Hk Hx ->. apply (ok_ids_nonempty _ Hok). by apply (owned_id_elem_of i k E).
Qed.
End Lookups.

(** A handler that returns a user error before it writes anything: the
    store is the one it was given. *)
Ltac returns_early := left; split; [congruence|]; left; eexists; by simplify_eq.

Section Properties.

Variable GenerateUUID : nat → string.
Variable Sprintf_q : string → string.
Variable groupID : string.

(** Identifiers are drawn without repetition and are never empty. *)
Hypothesis GenerateUUID_inj : ∀ n n', GenerateUUID n = GenerateUUID n' → n = n'.
Hypothesis GenerateUUID_nonempty : ∀ n, GenerateUUID n ≠ "".

Lemma keys_insert (m : gmap string (Group.t Alias.t)) k g :
  (∀ k g, m !! k = Some g → Group.ID g = k ∧ k ≠ "") →
  Group.ID g = k → k ≠ "" →
  ∀ k' g', <[k:=g]> m !! k' = Some g' → Group.ID g' = k' ∧ k' ≠ "".
Proof.
  intros Hm Hg Hk k' g'. rewrite lookup_insert_Some.
  intros [[<- <-]|[_ Hin]]; [done|by apply Hm].
Qed.

Lemma fresh_not_id i n b :
  fresh GenerateUUID i → (uuids i ≤ n)%nat → b ∈ aliases (db i) → Alias.ID b ≠ GenerateUUID n.
Proof.
  intros Hfresh Hn Hb Hid. destruct (Hfresh n Hn) as [_ Hno].
  apply Hno. rewrite <- Hid. by apply list_elem_of_fmap_2.
Qed.

Lemma registered_intro i i' d r a' mnt ws :
  wf GenerateUUID i →
  validateMountAccessorFunc i (Get d "mount_accessor") = Some mnt →
  Alias.MountAccessor a' = validateMountResponse.MountAccessor mnt →
  Alias.MountType a' = validateMountResponse.MountType mnt →
  Alias.Name a' = Get d "name" → Get d "name" ≠ "" →
  Alias.ID a' ≠ "" →
  replaces (db i) (db i') a' →
  r = respond (logical.mkResponse
        {[ "id" := Alias.ID a'; "group_id" := Alias.GroupID a' ]} ws) →
  validateMountAccessorFunc i' = validateMountAccessorFunc i →
  (∀ k g, db i' !! k = Some g → Group.ID g = k ∧ k ≠ "") →
  (∀ n, (uuids i' ≤ n)%nat →
     (uuids i ≤ n)%nat ∧ GenerateUUID n ≠ Alias.ID a' ∧ db i' !! GenerateUUID n = None) →
  registered GenerateUUID i i' d r a'.
Proof.
  intros [Hok Hfresh] Hmnt Hacc Hty Hname Hne Hid Hrep -> Hval Hkeys Hnew.
  split_and!; try done.
  - by exists mnt.
  - by exists ws.
  - split; [by apply (db_ok_replaces (db i) _ a')|].
    intros n Hn. destruct (Hnew n Hn) as (Hn' & Hna & Hdb). split; [done|].
    intros Hin. apply (replaces_ids _ _ _ _ Hrep) in Hin as [Hin|Hin]; [done|].
    by destruct (Hfresh n Hn') as [_ ?].
Qed.

Lemma handleGroupAliasUpdateCommon_spec i d ga r i' :
  wf GenerateUUID i →
  handleGroupAliasUpdateCommon GenerateUUID Sprintf_q i d ga = (r, i') →
  rejected i i' r ∨ ∃ a', registered GenerateUUID i i' d r a' ∧ origin i ga a'.
Proof.
  intros Hwf Hrun. pose proof Hwf as [Hok Hfresh].
  unfold handleGroupAliasUpdateCommon in Hrun.
  match type of Hrun with
  | match ?g with _ => _ end = _ => destruct g as [r0|group] eqn:Hgroup
  end.
  { left. split; [congruence|]. left. exists "invalid group ID".
    destruct (decide _); [|done].
    destruct (memDBGroupByID _ _); simplify_eq. done. }
  assert (group = None ∨
          ∃ G, group = Some (clone G) ∧ db i !! Group.ID G = Some G ∧ Group.ID G ≠ "")
    as Hgrp.
  { destruct (decide _) as [Hgid|]; [|left; congruence].
    destruct (memDBGroupByID _ _) as [G|] eqn:HG; [|done].
    right. exists G. unfold memDBGroupByID in HG.
    destruct (ok_key _ Hok _ _ HG) as [-> _]. by simplify_eq. }
  clear Hgroup.
  destruct (decide (Get d "name" = "")) as [|Hname].
  { returns_early. }
  destruct (decide (Get d "mount_accessor" = "")) as [|Hacc].
  { returns_early. }
  destruct (validateMountAccessorFunc i _) as [mnt|] eqn:Hmnt; cycle 1.
  { returns_early. }
  destruct ga as [a|]; simpl in Hrun.
  - match type of Hrun with
    | match (if ?c then _ else _) with _ => _ end = _ => destruct c eqn:Hchk
    end.
    { returns_early. }
    pose proof (factors_free_but _ _ _ _ (ok_factors _ Hok) Hchk) as Hfree.
    destruct (memDBGroupByAliasID i (Alias.ID a)) as [E|] eqn:HE; cycle 1.
    { left. split; [congruence|]. right. eexists. by simplify_eq. }
    apply memDBGroupByAliasID_Some in HE as [Hx [k Hk]].
    destruct (ok_key _ Hok _ _ Hk) as [<- HEne].
    pose proof (owned_id_nonempty _ _ _ _ Hok Hk Hx) as Hane.
    set (a' G := Alias.mk (Alias.ID a) (Get d "name")
                (validateMountResponse.MountType mnt)
                (validateMountResponse.MountAccessor mnt) G).
    destruct Hgrp as [->|(G & -> & HG & HGne)];
      [|simpl in Hrun; destruct (decide (Group.ID G ≠ Group.ID E)) as [Hmove|_]].
    2: {
      unfold sanitizeGroup, sanitizeGroupAlias in Hrun. simpl in Hrun.
      rewrite !decide_False in Hrun by done. simpl in Hrun.
      rewrite deref_append, deref_deleteAliasFromGroup in Hrun.
      simplify_eq. right. exists (a' (Group.ID G)).
      split; [|split; [done|by apply (owned_id_elem_of i (Group.ID E) E)]].
      eapply (registered_intro _ _ _ _ _ mnt); try done; simpl.
      - apply (replaces_transfer (db i) _ _ _ _ E G (a' (Group.ID G)));
          [apply (ok_ids _ Hok)|done|done|congruence|done|exact Hfree].
      - apply keys_insert; [apply keys_insert; [by apply (ok_key _ Hok)|done..]|done..].
      - intros n Hn. destruct (Hfresh n Hn) as [Hnone Hnid]. split_and!; [done| |].
        + intros Heq. apply Hnid. rewrite Heq. by apply (owned_id_elem_of i (Group.ID E) E).
        + rewrite !lookup_insert_ne; [done|congruence..]. }
    all: unfold sanitizeGroup, sanitizeGroupAlias in Hrun; simpl in Hrun;
      rewrite !decide_False in Hrun by done; simpl in Hrun;
      rewrite (deref_updateAliasInGroup E a) in Hrun by done;
      simplify_eq; right; exists (a' (Group.ID E));
      (split; [|split; [done|by apply (owned_id_elem_of i (Group.ID E) E)]]);
      (eapply (registered_intro _ _ _ _ _ mnt); try done; simpl;
       [ apply (replaces_in_place (db i) _ _ E (a' (Group.ID E)));
           [apply (ok_ids _ Hok)|done|done|exact Hfree]
       | apply keys_insert; [by apply (ok_key _ Hok)|done..]
       | intros n Hn; destruct (Hfresh n Hn) as [Hnone Hnid]; split_and!; [done| |];
         [ intros Heq; apply Hnid; rewrite Heq; by apply (owned_id_elem_of i (Group.ID E) E)
         | rewrite lookup_insert_ne; [done|congruence] ] ]).
  - destruct (memDBGroupAliasByFactors i _ _) as [|] eqn:Hfac.
    { returns_early. }
    pose proof (proj1 (memDBGroupAliasByFactors_None _ _ _) Hfac) as Hfree.
    destruct Hgrp as [->|(G & -> & HG & HGne)].
    + unfold sanitizeGroup, sanitizeGroupAlias in Hrun. simpl in Hrun.
      simplify_eq. right.
      exists (Alias.mk (GenerateUUID (S (uuids i))) (Get d "name")
                (validateMountResponse.MountType mnt)
                (validateMountResponse.MountAccessor mnt) (GenerateUUID (uuids i))).
      split; [|simpl; apply (Hfresh (S (uuids i))); lia].
      eapply (registered_intro _ _ _ _ _ mnt); try done; simpl.
      * apply GenerateUUID_nonempty.
      * apply replaces_singleton. intros b Hb. split; [|by apply Hfree].
        apply (fresh_not_id i); [done|lia|done].
      * apply keys_insert; [by apply (ok_key _ Hok)|done..].
      * intros n Hn. split_and!; [lia| |].
        -- intros ?%GenerateUUID_inj. lia.
        -- rewrite lookup_insert_ne; [apply Hfresh; lia|].
           intros ?%GenerateUUID_inj. lia.
    + unfold sanitizeGroup, sanitizeGroupAlias in Hrun. simpl in Hrun.
      rewrite decide_False in Hrun by done. simpl in Hrun.
      simplify_eq. right.
      exists (Alias.mk (GenerateUUID (uuids i)) (Get d "name")
                (validateMountResponse.MountType mnt)
                (validateMountResponse.MountAccessor mnt) (Group.ID G)).
      split; [|simpl; apply (Hfresh (uuids i)); lia].
      eapply (registered_intro _ _ _ _ _ mnt); try done; simpl.
      * apply GenerateUUID_nonempty.
      * apply replaces_singleton. intros b Hb. split; [|by apply Hfree].
        apply (fresh_not_id i); [done|lia|done].
      * apply keys_insert; [by apply (ok_key _ Hok)|done..].
      * intros n Hn. split_and!; [lia| |].
        -- intros ?%GenerateUUID_inj. lia.
        -- rewrite lookup_insert_ne; [apply Hfresh; lia|].
           intros Heq. destruct (Hfresh n) as [Hnone _]; [lia|]. congruence.
Qed.


Lemma pathGroupAliasIDUpdate_spec i d r i' :
  wf GenerateUUID i →
  pathGroupAliasIDUpdate GenerateUUID Sprintf_q groupID i d = (r, i') →
  rejected i i' r ∨
  ∃ a', registered GenerateUUID i i' d r a' ∧ Alias.ID a' ∈ Alias.ID <$> aliases (db i).
Proof.
  intros Hwf. unfold pathGroupAliasIDUpdate.
  destruct (decide (Get d "id" = "")).
  { intros. returns_early. }
  destruct (memDBGroupAliasByID i groupID) as [a|].
  - intros Hrun.
    apply (handleGroupAliasUpdateCommon_spec _ _ _ _ _ Hwf) in Hrun
      as [?|(a' & Hreg & Hid & Hin)]; [by left|].
    right. exists a'. split; [done|]. by rewrite Hid.
  - intros. returns_early.
Qed.

Lemma pathGroupAliasRegister_spec i d r i' :
  wf GenerateUUID i →
  pathGroupAliasRegister GenerateUUID Sprintf_q groupID i d = (r, i') →
  rejected i i' r ∨
  ∃ a', registered GenerateUUID i i' d r a' ∧
        match GetOk d "id" with
        | None => Alias.ID a' ∉ Alias.ID <$> aliases (db i)
        | Some _ => Alias.ID a' ∈ Alias.ID <$> aliases (db i)
        end.
Proof.
  intros Hwf. unfold pathGroupAliasRegister. destruct (GetOk d "id").
  - by apply pathGroupAliasIDUpdate_spec.
  - by apply handleGroupAliasUpdateCommon_spec.
Qed.

Lemma pathGroupAliasRegister_wf i d :
  wf GenerateUUID i → wf GenerateUUID (pathGroupAliasRegister GenerateUUID Sprintf_q groupID i d).2.
Proof.
  intros Hwf.
  destruct (pathGroupAliasRegister GenerateUUID Sprintf_q groupID i d) as [r i'] eqn:Hrun.
  apply (pathGroupAliasRegister_spec _ _ _ _ Hwf) in Hrun as [[-> _]|(a' & Hreg & _)]; [done|].
  simpl. apply Hreg.
Qed.

Lemma registerAll_wf i ds : wf GenerateUUID i → wf GenerateUUID (registerAll GenerateUUID Sprintf_q groupID i ds).
Proof.
  revert i. induction ds as [|d ds IH]; intros i Hwf; [done|].
  simpl. apply IH. by apply pathGroupAliasRegister_wf.
Qed.



(** C8 (round trip).  When a register request succeeds and returns the id
    [X], reading by [X] right away returns the view of an alias whose name
    is the name of the request and whose mount accessor is the one the
    mount accessor of the request resolved to. *)
Theorem register_read_round_trip (i i' : IdentityStore) (d d' : FieldData)
    (resp : logical.Response) (X : string) :
  wf GenerateUUID i →
  pathGroupAliasRegister GenerateUUID Sprintf_q groupID i d = (respond resp, i') →
  logical.Data resp !! "id" = Some X →
  Get d' "id" = X →
  ∃ mnt view,
    validateMountAccessorFunc i (Get d "mount_accessor") = Some mnt ∧
    pathGroupAliasIDRead i' d' = respond view ∧
    logical.IsError view = false ∧
    logical.Data view !! "id" = Some X ∧
    logical.Data view !! "name" = Some (Get d "name") ∧
    logical.Data view !! "mount_accessor" = Some (validateMountResponse.MountAccessor mnt).
Proof.
  intros Hwf Hrun HX Hd'.
  apply (pathGroupAliasRegister_spec _ _ _ _ Hwf) in Hrun
    as [[_ [[text Hr]|[e Hr]]]|(a' & Hreg & _)].
  { unfold userError, respond in Hr. simplify_eq. }
  { unfold fail, respond in Hr. simplify_eq. }
  destruct Hreg as ((mnt & Hmnt & Hacc & Hty) & Hname & _ & Hid & Hrep & (ws & Hr) & _ & Hwf').
  unfold respond in Hr. injection Hr as ->. simpl in HX.
  rewrite lookup_insert_eq in HX. injection HX as HX. subst X.
  exists mnt. eexists. split; [done|].
  unfold pathGroupAliasIDRead. rewrite Hd'. rewrite decide_False by done.
  rewrite (memDBGroupAliasByID_unique i' a');
    [|apply (ok_ids _ (proj1 Hwf'))|by apply (replaces_elem_of (db i))].
  simpl. split; [done|]. split; [done|]. simpl.
  rewrite lookup_insert_eq. rewrite lookup_insert_ne by done.
  rewrite lookup_insert_eq. rewrite !lookup_insert_ne by done.
  rewrite lookup_insert_eq. by rewrite Hname, Hacc.
Qed.


(** C5 (transfer).  On the update path, when the request names a group
    other than the group that owns the alias, the alias leaves the alias
    set of its owner and is appended to the alias set of the named group;
    the response is a success that carries a warning; both groups are
    written to the packed store and to the index. *)
Theorem transfer_moves_alias (i : IdentityStore) (d : FieldData) (a : Alias.t)
    (G E : Group.t Alias.t) (mnt : validateMountResponse.t) :
  db_ok (db i) →
  Get d "group_id" ≠ "" →
  memDBGroupByID i (Get d "group_id") = Some G →
  Get d "name" ≠ "" →
  Get d "mount_accessor" ≠ "" →
  validateMountAccessorFunc i (Get d "mount_accessor") = Some mnt →
  (∀ b, b ∈ aliases (db i) →
     Alias.factors b = (validateMountResponse.MountAccessor mnt, Get d "name") →
     Alias.ID b = Alias.ID a) →
  memDBGroupByAliasID i (Alias.ID a) = Some E →
  Group.ID G ≠ Group.ID E →
  let a' := Alias.mk (Alias.ID a) (Get d "name") (validateMountResponse.MountType mnt)
              (validateMountResponse.MountAccessor mnt) (Group.ID G) in
  let E' := Group.mk (Group.ID E) (filter (λ b, Alias.ID b ≠ Alias.ID a) (Group.Alias E)) in
  let G' := Group.mk (Group.ID G) (Group.Alias G ++ [a']) in
  ∃ resp i',
    handleGroupAliasUpdateCommon GenerateUUID Sprintf_q i d (Some a) = (respond resp, i') ∧
    logical.IsError resp = false ∧
    logical.Warnings resp =
      ["group alias is being transferred from group " +:+ Sprintf_q (Group.ID E)
         +:+ " to " +:+ Sprintf_q (Group.ID G)] ∧
    logical.Data resp !! "id" = Some (Alias.ID a) ∧
    logical.Data resp !! "group_id" = Some (Group.ID G) ∧
    memDBGroupByID i' (Group.ID E) = Some E' ∧
    (Alias.ID a ∉ Alias.ID <$> Group.Alias E') ∧
    memDBGroupByID i' (Group.ID G) = Some G' ∧
    a' ∈ Group.Alias G' ∧
    groupPacker i' !! Group.ID E = Some E' ∧
    groupPacker i' !! Group.ID G = Some G'.
Proof.
  intros Hok Hgid HG Hname Hacc Hmnt Hfree HE Hne a' E' G'.
  pose proof HG as HG'. unfold memDBGroupByID in HG'.
  destruct (ok_key _ Hok _ _ HG') as [HGid _].
  destruct (memDBGroupByAliasID_Some _ _ _ HE) as [Hx [k Hk]].
  destruct (ok_key _ Hok _ _ Hk) as [<- HEne].
  pose proof (owned_id_nonempty _ _ _ _ Hok Hk Hx) as Hane.
  eexists _, _. split.
  { unfold handleGroupAliasUpdateCommon.
    rewrite decide_True by done. rewrite HG.
    rewrite decide_False by done. rewrite decide_False by done. rewrite Hmnt. simpl.
    assert (match memDBGroupAliasByFactors i (validateMountResponse.MountAccessor mnt)
                    (Get d "name") with
            | Some a0 => bool_decide (Alias.ID a0 ≠ Alias.ID a)
            | None => false
            end = false) as ->.
    { destruct (memDBGroupAliasByFactors i _ _) as [f|] eqn:Hf; [|done].
      apply memDBGroupAliasByFactors_Some in Hf as [Hff Hfin].
      apply bool_decide_eq_false. intros Hid. apply Hid. by apply Hfree. }
    rewrite HE. simpl. rewrite decide_True by done.
    unfold sanitizeGroup, sanitizeGroupAlias. simpl.
    rewrite !decide_False by congruence. simpl.
    rewrite deref_append, deref_deleteAliasFromGroup. reflexivity. }
  unfold upsertGroup, memDBGroupByID. simpl. fold a' E' G'.
  split_and!; try done.
  - by rewrite lookup_insert_eq.
  - intros (b & Hid & Hb)%list_elem_of_fmap.
    apply list_elem_of_filter in Hb as [Hb _]. by destruct Hb.
  - rewrite lookup_insert_ne by done. by rewrite lookup_insert_eq.
  - apply elem_of_app. right. by apply list_elem_of_singleton.
  - by rewrite lookup_insert_eq.
  - rewrite lookup_insert_ne by done. by rewrite lookup_insert_eq.
Qed.


Lemma deleteGroupAlias_absent i x :
  memDBGroupAliasByID i x = None → deleteGroupAlias i x = (None, i).
Proof. intros Hx. unfold deleteGroupAlias. by rewrite Hx. Qed.

Lemma deleteGroupAlias_present i x a :
  db_ok (db i) →
  memDBGroupAliasByID i x = Some a →
  ∃ i', deleteGroupAlias i x = (None, i') ∧ memDBGroupAliasByID i' x = None.
Proof.
  intros Hok Ha. unfold deleteGroupAlias. rewrite Ha.
  apply memDBGroupAliasByID_Some in Ha as [<- Hin].
  destruct (memDBGroupByAliasID_is_Some i a Hin) as [E HE]. rewrite HE.
  destruct (memDBGroupByAliasID_Some _ _ _ HE) as [Hx [k Hk]].
  destruct (ok_key _ Hok _ _ Hk) as [<- _].
  eexists. split; [done|].
  rewrite deref_deleteAliasFromGroup.
  apply memDBGroupAliasByID_None. unfold upsertGroup. simpl.
  rewrite aliases_insert, fmap_app. simpl.
  intros [Hl|Hr]%elem_of_app.
  - apply list_elem_of_fmap in Hl as (b & Hid & Hb).
    apply list_elem_of_filter in Hb as [Hb _]. by destruct Hb.
  - apply list_elem_of_fmap in Hr as (b & Hid & Hb).
    by apply (owner_others (db i) (Group.ID E) E (Alias.ID a) b (ok_ids _ Hok)).
Qed.

(** C7 (idempotent delete), as the code has it: for a non-empty id,
    deleting succeeds; it leaves the store as it was when the id denotes
    no alias; and deleting the same id again succeeds and leaves the
    store as the first deletion left it. *)
Theorem delete_idempotent (i : IdentityStore) (d : FieldData) :
  db_ok (db i) →
  Get d "id" ≠ "" →
  let i1 := (pathAliasIDDelete i d).2 in
  (pathAliasIDDelete i d).1 = nothing ∧
  (memDBGroupAliasByID i (Get d "id") = None → i1 = i) ∧
  memDBGroupAliasByID i1 (Get d "id") = None ∧
  pathAliasIDDelete i1 d = (nothing, i1).
Proof.
  intros Hok Hid i1. subst i1. unfold pathAliasIDDelete.
  rewrite decide_False by done.
  destruct (memDBGroupAliasByID i (Get d "id")) as [a|] eqn:Ha.
  - destruct (deleteGroupAlias_present i _ a Hok Ha) as (i' & -> & Hgone). simpl.
    split_and!; [done..|]. rewrite decide_False by done.
    by rewrite (deleteGroupAlias_absent i' _ Hgone).
  - rewrite (deleteGroupAlias_absent i _ Ha). simpl.
    split_and!; [done..|]. rewrite decide_False by done.
    by rewrite (deleteGroupAlias_absent i _ Ha).
Qed.

(** C10.  Deleting with an empty id is no success: it returns the user
    error [missing group alias ID] and leaves the store as it was. *)
Theorem delete_empty_id (i : IdentityStore) (d : FieldData) :
  Get d "id" = "" →
  pathAliasIDDelete i d = (userError "missing group alias ID", i) ∧
  (pathAliasIDDelete i d).1 ≠ nothing.
Proof.
  intros Hid. unfold pathAliasIDDelete. rewrite decide_True by done. done.
Qed.

(** C9.  Reading with an empty id fails with [empty group alias id];
    reading with a non-empty id that denotes no alias returns nothing,
    which is another result. *)
Theorem read_empty_id (i : IdentityStore) (d d' : FieldData) :
  Get d "id" = "" →
  Get d' "id" ≠ "" →
  memDBGroupAliasByID i (Get d' "id") = None →
  pathGroupAliasIDRead i d = userError "empty group alias id" ∧
  pathGroupAliasIDRead i d' = nothing ∧
  pathGroupAliasIDRead i d ≠ pathGroupAliasIDRead i d'.
Proof.
  intros Hid Hid' Hno. unfold pathGroupAliasIDRead.
  rewrite decide_True by done. rewrite decide_False by done. rewrite Hno. done.
Qed.

Lemma registered_id i i' d a' resp X :
  registered GenerateUUID i i' d (respond resp) a' →
  logical.Data resp !! "id" = Some X → X = Alias.ID a'.
Proof.
  intros (_ & _ & _ & _ & _ & (ws & Hr) & _) HX.
  unfold respond in Hr. injection Hr as ->. simpl in HX.
  rewrite lookup_insert_eq in HX. by injection HX.
Qed.

Lemma rejected_no_id i i' resp X :
  rejected i i' (respond resp) → logical.Data resp !! "id" = Some X → False.
Proof.
  intros [_ [[text Hr]|[e Hr]]] HX.
  - unfold userError, respond in Hr. injection Hr as ->. simpl in HX.
    by rewrite lookup_singleton_ne in HX.
  - by unfold fail, respond in Hr.
Qed.

(** C3, as the code has it.  A register request without an id field
    follows the create path: when it succeeds, the id it returns denoted no
    alias before and denotes one now.  A request with an id field is handed
    to [pathGroupAliasIDUpdate]: an empty id is turned down with [empty
    group alias ID], the store left as it was, and when the request
    succeeds the id it returns denoted an alias before: nothing is
    created. *)
Theorem register_dispatch (i i' : IdentityStore) (d : FieldData) (r : result) :
  wf GenerateUUID i →
  pathGroupAliasRegister GenerateUUID Sprintf_q groupID i d = (r, i') →
  match GetOk d "id" with
  | None =>
      handleGroupAliasUpdateCommon GenerateUUID Sprintf_q i d None = (r, i') ∧
      ∀ resp X, r = respond resp → logical.Data resp !! "id" = Some X →
        memDBGroupAliasByID i X = None ∧ is_Some (memDBGroupAliasByID i' X)
  | Some id =>
      pathGroupAliasIDUpdate GenerateUUID Sprintf_q groupID i d = (r, i') ∧
      (id = "" → r = userError "empty group alias ID" ∧ i' = i) ∧
      ∀ resp X, r = respond resp → logical.Data resp !! "id" = Some X →
        is_Some (memDBGroupAliasByID i X)
  end.
Proof.
  intros Hwf Hrun.
  pose proof (pathGroupAliasRegister_spec _ _ _ _ Hwf Hrun) as Hspec.
  unfold pathGroupAliasRegister in Hrun.
  destruct (GetOk d "id") as [id|] eqn:Hid.
  - split_and!; [done| |].
    + intros ->. unfold pathGroupAliasIDUpdate, Get in Hrun. rewrite Hid in Hrun.
      simpl in Hrun. by simplify_eq.
    + intros resp X -> HX. destruct Hspec as [Hrej|(a' & Hreg & Hin)].
      { destruct (rejected_no_id _ _ _ _ Hrej HX). }
      rewrite (registered_id _ _ _ _ _ _ Hreg HX).
      destruct (memDBGroupAliasByID i (Alias.ID a')) eqn:Hlook; [by eexists|].
      by apply memDBGroupAliasByID_None in Hlook.
  - split; [done|].
    intros resp X -> HX. destruct Hspec as [Hrej|(a' & Hreg & Hin)].
    { destruct (rejected_no_id _ _ _ _ Hrej HX). }
    rewrite (registered_id _ _ _ _ _ _ Hreg HX). split.
    + by apply memDBGroupAliasByID_None.
    + destruct Hreg as (_ & _ & _ & _ & Hrep & _ & _ & Hwf').
      rewrite (memDBGroupAliasByID_unique i' a');
        [by eexists|apply (ok_ids _ (proj1 Hwf'))|by apply (replaces_elem_of (db i))].
Qed.


End Properties.

(** ** The handlers at work *)

Lemma db_okb_ok (m : gmap string (Group.t Alias.t)) : db_okb m = true → db_ok m.
Proof.
  unfold db_okb. rewrite !andb_true_iff, !bool_decide_eq_true.
  intros [[[Hkey Hids] Hne] Hfac]. split; [|done..].
  intros k g Hk. apply (Hkey k g Hk).
Qed.

Lemma uuid_inj (n n' : nat) : Scenario.uuid n = Scenario.uuid n' → n = n'.
Proof.
  unfold Scenario.uuid. simpl. intros [= H]. revert n' H.
  induction n as [|n IH]; intros [|n']; simpl; try done.
  intros [= H]. f_equal. by apply IH.
Qed.

Lemma uuid_nonempty (n : nat) : Scenario.uuid n ≠ "".
Proof. done. Qed.

Lemma wf_empty_store : wf Scenario.uuid Scenario.empty_store.
Proof.
  split.
  - by apply db_okb_ok.
  - intros n _. simpl. rewrite lookup_empty, aliases_empty. split; [done|].
    apply not_elem_of_nil.
Qed.

Lemma db_ok_store1 : db_ok (db Scenario.store1).
Proof. by apply db_okb_ok. Qed.

Lemma db_ok_store2 : db_ok (db Scenario.store2).
Proof. by apply db_okb_ok. Qed.

(** What the handler reads of a request are the fields [group_id], [name]
    and [mount_accessor]. *)
Lemma handleGroupAliasUpdateCommon_ext GenerateUUID Sprintf_q i d d' ga :
  Get d "group_id" = Get d' "group_id" →
  Get d "name" = Get d' "name" →
  Get d "mount_accessor" = Get d' "mount_accessor" →
  handleGroupAliasUpdateCommon GenerateUUID Sprintf_q i d ga =
  handleGroupAliasUpdateCommon GenerateUUID Sprintf_q i d' ga.
Proof.
  intros Hg Hn Hm. unfold handleGroupAliasUpdateCommon. by rewrite Hg, Hn, Hm.
Qed.

(** The update handler never looks the requested id up: two requests that
    differ in their non-empty id only get the same answer. *)
Lemma pathGroupAliasIDUpdate_ignores_id GenerateUUID Sprintf_q groupID i d d' :
  Get d "id" ≠ "" → Get d' "id" ≠ "" →
  Get d "group_id" = Get d' "group_id" →
  Get d "name" = Get d' "name" →
  Get d "mount_accessor" = Get d' "mount_accessor" →
  pathGroupAliasIDUpdate GenerateUUID Sprintf_q groupID i d =
  pathGroupAliasIDUpdate GenerateUUID Sprintf_q groupID i d'.
Proof.
  intros Hid Hid' Hg Hn Hm. unfold pathGroupAliasIDUpdate.
  rewrite !decide_False by done.
  destruct (memDBGroupAliasByID i groupID); [|done].
  by apply handleGroupAliasUpdateCommon_ext.
Qed.

Lemma errorText_userError (text : string) : errorText (userError text) = Some text.
Proof. unfold errorText, userError, respond, logical.ErrorResponse. apply lookup_singleton_eq. Qed.

Lemma userError_inj (text text' : string) : userError text = userError text' → text = text'.
Proof.
  intros H. apply (f_equal errorText) in H.
  rewrite !errorText_userError in H. by injection H.
Qed.

(** C2.  Group [g1] holds the alias [alice]; registering a new alias [bob]
    with [group_id] [g1] succeeds, and afterwards the alias set of [g1] is
    [bob] alone: [alice] is no longer in the group nor in the index.  The
    create path assigns the new alias to the alias set of the group where
    the transfer path appends to it. *)
Theorem create_in_group_overwrites_alias_set :
  let run := Scenario.register Scenario.store1 Scenario.register_bob_in_g1 in
  let bob := Alias.mk "u" "bob" "userpass" "auth_userpass_1234" "g1" in
  run.1 = respond (logical.mkResponse {[ "id" := "u"; "group_id" := "g1" ]} []) ∧
  memDBGroupByID Scenario.store1 "g1" = Some (Group.mk "g1" [Scenario.alice]) ∧
  memDBGroupByID run.2 "g1" = Some (Group.mk "g1" [bob]) ∧
  memDBGroupAliasByID run.2 "a1" = None.
Proof. vm_compute. split_and!; reflexivity. Qed.

Lemma aliases_store1 : aliases (db Scenario.store1) = [Scenario.alice].
Proof. by vm_compute. Qed.

(** C4.  The index holds the alias [a1] and no alias [zz].  Whatever
    [groupID] holds in the scope of the update handler, the request to
    update [a1] and the request to update [zz] get the same answer: when
    [groupID] is [a1] both update [a1], otherwise the request that names
    the existing alias [a1] is turned down with [invalid group alias ID]. *)
Theorem update_looks_up_groupID (gid : string) :
  let update := pathGroupAliasIDUpdate Scenario.uuid Scenario.quote gid Scenario.store1 in
  let rename (id : string) := Scenario.request
    [("id", id); ("name", "alicia"); ("mount_accessor", "auth_userpass_1234")] in
  memDBGroupAliasByID Scenario.store1 "a1" = Some Scenario.alice ∧
  memDBGroupAliasByID Scenario.store1 "zz" = None ∧
  update (rename "a1") = update (rename "zz") ∧
  if decide (gid = "a1")
  then (update (rename "zz")).1 =
         respond (logical.mkResponse {[ "id" := "a1"; "group_id" := "g1" ]} [])
  else update (rename "a1") = (userError "invalid group alias ID", Scenario.store1).
Proof.
  intros update rename. split_and!.
  - by vm_compute.
  - by vm_compute.
  - by apply pathGroupAliasIDUpdate_ignores_id.
  - destruct (decide (gid = "a1")) as [->|Hne].
    + by vm_compute.
    + subst update. unfold pathGroupAliasIDUpdate.
      rewrite decide_False by done.
      assert (memDBGroupAliasByID Scenario.store1 gid = None) as ->; [|done].
      apply memDBGroupAliasByID_None. rewrite aliases_store1. simpl.
      rewrite list_elem_of_singleton. done.
Qed.

(** C3, the claim refuted: a register request whose id field is present and
    empty does not follow the create path, which would register the alias;
    it is turned down with [empty group alias ID]. *)
Lemma register_empty_id_not_created :
  let d := Scenario.request
    [("id", ""); ("name", "alice"); ("mount_accessor", "auth_userpass_1234")] in
  GetOk d "id" = Some "" ∧
  Scenario.register Scenario.empty_store d =
    (userError "empty group alias ID", Scenario.empty_store) ∧
  Scenario.register Scenario.empty_store d ≠
    handleGroupAliasUpdateCommon Scenario.uuid Scenario.quote Scenario.empty_store d None.
Proof.
  intros d. split_and!; [done..|].
  intros H. apply (f_equal (λ x, errorText x.1)) in H. by vm_compute in H.
Qed.


(** C7, the claim refuted: the empty id denotes no alias, and deleting it
    is not a success that does nothing but the error [missing group alias
    ID]. *)
Lemma delete_empty_id_not_a_success :
  let d := Scenario.request [("id", "")] in
  memDBGroupAliasByID Scenario.store1 (Get d "id") = None ∧
  (pathAliasIDDelete Scenario.store1 d).1 = userError "missing group alias ID" ∧
  (pathAliasIDDelete Scenario.store1 d).1 ≠ nothing.
Proof. intros d. split_and!; done. Qed.

(** ** The theorems at work *)


(** [alice] of group [g1] is registered again with [group_id] [g2]. *)
Lemma transfer_moves_alias_witness :
  let d := Scenario.request
    [("name", "alice"); ("mount_accessor", "auth_userpass_1234"); ("group_id", "g2")] in
  let alice' := Alias.mk "a1" "alice" "userpass" "auth_userpass_1234" "g2" in
  ∃ resp i',
    handleGroupAliasUpdateCommon Scenario.uuid Scenario.quote Scenario.store2 d
      (Some Scenario.alice) = (respond resp, i') ∧
    logical.IsError resp = false ∧
    logical.Warnings resp = ["group alias is being transferred from group 'g1' to 'g2'"] ∧
    logical.Data resp !! "id" = Some "a1" ∧
    logical.Data resp !! "group_id" = Some "g2" ∧
    memDBGroupByID i' "g1" = Some (Group.mk "g1" []) ∧
    ("a1" ∉ Alias.ID <$> @nil Alias.t) ∧
    memDBGroupByID i' "g2" = Some (Group.mk "g2" [alice']) ∧
    alice' ∈ [alice'] ∧
    groupPacker i' !! "g1" = Some (Group.mk "g1" []) ∧
    groupPacker i' !! "g2" = Some (Group.mk "g2" [alice']).
Proof.
  intros d alice'.
  apply (transfer_moves_alias Scenario.uuid Scenario.quote Scenario.store2 d Scenario.alice
           Scenario.g2 Scenario.g1 (validateMountResponse.mk "auth_userpass_1234" "userpass")).
  - apply db_ok_store2.
  - done.
  - done.
  - done.
  - done.
  - done.
  - intros b Hb _. assert (aliases (db Scenario.store2) = [Scenario.alice]) as Hall
      by (by vm_compute).
    rewrite Hall in Hb. apply list_elem_of_singleton in Hb. by subst b.
  - by vm_compute.
  - done.
Defined.

(** Deleting [alice] twice. *)
Lemma delete_idempotent_witness :
  let d := Scenario.request [("id", "a1")] in
  let i1 := (pathAliasIDDelete Scenario.store1 d).2 in
  (pathAliasIDDelete Scenario.store1 d).1 = nothing ∧
  (memDBGroupAliasByID Scenario.store1 (Get d "id") = None → i1 = Scenario.store1) ∧
  memDBGroupAliasByID i1 (Get d "id") = None ∧
  pathAliasIDDelete i1 d = (nothing, i1).
Proof.
  intros d. apply (delete_idempotent Scenario.store1 d).
  - apply db_ok_store1.
  - done.
Defined.

(** Registering [alice] in the empty store returns the id [ui]; reading
    [ui] returns her name and mount accessor. *)
Lemma register_read_round_trip_witness :
  let i' := (Scenario.register Scenario.empty_store Scenario.register_alice).2 in
  let d' := Scenario.request [("id", "ui")] in
  ∃ mnt view,
    validateMountAccessorFunc Scenario.empty_store
      (Get Scenario.register_alice "mount_accessor") = Some mnt ∧
    pathGroupAliasIDRead i' d' = respond view ∧
    logical.IsError view = false ∧
    logical.Data view !! "id" = Some "ui" ∧
    logical.Data view !! "name" = Some (Get Scenario.register_alice "name") ∧
    logical.Data view !! "mount_accessor" = Some (validateMountResponse.MountAccessor mnt).
Proof.
  intros i' d'.
  apply (register_read_round_trip Scenario.uuid Scenario.quote Scenario.groupID
           uuid_inj uuid_nonempty Scenario.empty_store i' Scenario.register_alice d'
           (logical.mkResponse {[ "id" := "ui"; "group_id" := "u" ]} []) "ui").
  - apply wf_empty_store.
  - by vm_compute.
  - by vm_compute.
  - done.
Defined.

(** Reading with no id and reading the unknown id [zz]. *)
Lemma read_empty_id_witness :
  let d := Scenario.request [] in
  let d' := Scenario.request [("id", "zz")] in
  pathGroupAliasIDRead Scenario.store1 d = userError "empty group alias id" ∧
  pathGroupAliasIDRead Scenario.store1 d' = nothing ∧
  pathGroupAliasIDRead Scenario.store1 d ≠ pathGroupAliasIDRead Scenario.store1 d'.
Proof.
  intros d d'. apply (read_empty_id Scenario.store1 d d'); done.
Defined.

(** Deleting with an empty id. *)
Lemma delete_empty_id_witness :
  let d := Scenario.request [("id", "")] in
  pathAliasIDDelete Scenario.store1 d = (userError "missing group alias ID", Scenario.store1) ∧
  (pathAliasIDDelete Scenario.store1 d).1 ≠ nothing.
Proof.
  intros d. apply (delete_empty_id Scenario.store1 d). done.
Defined.

(** Registering [alice] without an id in the empty store. *)
Lemma register_dispatch_witness :
  let run := Scenario.register Scenario.empty_store Scenario.register_alice in
  handleGroupAliasUpdateCommon Scenario.uuid Scenario.quote Scenario.empty_store
    Scenario.register_alice None = (run.1, run.2) ∧
  ∀ resp X, run.1 = respond resp → logical.Data resp !! "id" = Some X →
    memDBGroupAliasByID Scenario.empty_store X = None ∧
    is_Some (memDBGroupAliasByID run.2 X).
Proof.
  intros run.
  apply (register_dispatch Scenario.uuid Scenario.quote Scenario.groupID
           uuid_inj uuid_nonempty Scenario.empty_store run.2 Scenario.register_alice run.1).
  - apply wf_empty_store.
  - by vm_compute.
Defined.

(** ** More about the handlers *)

Section Listing.

Lemma drain_ids (iter : list Alias.t) (groupAliasIDs : list string) :
  drain iter groupAliasIDs = groupAliasIDs ++ (Alias.ID <$> iter).
Proof.
  revert groupAliasIDs. induction iter as [|raw iter IH]; intros acc; simpl.
  - by rewrite app_nil_r.
  - rewrite IH. by rewrite <- app_assoc.
Qed.

Lemma listedKeys_ids (i : IdentityStore) (d : FieldData) :
  listedKeys (pathGroupAliasIDList i d) = Alias.ID <$> aliases (db i).
Proof. unfold listedKeys, pathGroupAliasIDList. simpl. by rewrite drain_ids. Qed.

End Listing.

Section Shapes.

Variable GenerateUUID : nat → string.
Variable Sprintf_q : string → string.
Variable groupID : string.

Lemma same_data_refl (i : IdentityStore) : same_data i i.
Proof. done. Qed.

Lemma same_data_set_uuids (i : IdentityStore) (n : nat) : same_data (set_uuids i n) i.
Proof. done. Qed.

Lemma sanitizeGroup_same_data {A} (i i0 : IdentityStore) (g g0 : Group.t A) :
  sanitizeGroup GenerateUUID i g = (g0, i0) → same_data i0 i.
Proof. unfold sanitizeGroup. case_decide; intros [= <- <-]; done. Qed.

Lemma sanitizeGroupAlias_same_data (i i0 : IdentityStore) (a a0 : Alias.t) :
  sanitizeGroupAlias GenerateUUID i a = (a0, i0) → same_data i0 i.
Proof. unfold sanitizeGroupAlias. case_decide; intros [= <- <-]; done. Qed.

(** Whatever the store, the handler either stops with an error and the
    store it was given, or writes through [upsertGroup] with [persist]
    set: one group and no warning, or, on a transfer, two groups and the
    warning. *)
Lemma handleGroupAliasUpdateCommon_shape i d ga r i' :
  handleGroupAliasUpdateCommon GenerateUUID Sprintf_q i d ga = (r, i') →
  rejected i i' r ∨
  (∃ i0 g x y, same_data i0 i ∧ i' = upsertGroup i0 g None true ∧
     r = registeredResponse x y []) ∨
  (∃ a E G i0 g p x y,
     ga = Some a ∧ memDBGroupByAliasID i (Alias.ID a) = Some E ∧
     Get d "group_id" ≠ "" ∧ memDBGroupByID i (Get d "group_id") = Some G ∧
     Group.ID G ≠ Group.ID E ∧
     same_data i0 i ∧ i' = upsertGroup i0 g (Some p) true ∧
     r = registeredResponse x y [transferWarning Sprintf_q (Group.ID E) (Group.ID G)]).
Proof.
  intros Hrun. unfold handleGroupAliasUpdateCommon in Hrun.
  match type of Hrun with
  | match ?g with _ => _ end = _ => destruct g as [r0|group] eqn:Hgroup
  end.
  { left. split; [congruence|]. left. exists "invalid group ID".
    destruct (decide _); [|done].
    destruct (memDBGroupByID _ _); simplify_eq. done. }
  destruct (decide (Get d "name" = "")) as [|Hname]; [returns_early|].
  destruct (decide (Get d "mount_accessor" = "")) as [|Hacc]; [returns_early|].
  destruct (validateMountAccessorFunc i _) as [mnt|] eqn:Hmnt; [|returns_early].
  match type of Hrun with
  | match ?c with _ => _ end = _ => destruct c as [r0|[[g p] resp]] eqn:Hchosen
  end.
  { left. split; [congruence|]. assert (r0 = r) as <- by congruence. clear Hrun.
    destruct ga as [a|]; simpl in Hchosen.
    - match type of Hchosen with
      | (if ?c then _ else _) = _ => destruct c
      end; [left; eexists; by simplify_eq|].
      destruct (memDBGroupByAliasID i _); [|right; eexists; by simplify_eq].
      destruct group; [case_decide|]; done.
    - destruct (memDBGroupAliasByFactors i _ _); [left; eexists; by simplify_eq|].
      by destruct group. }
  destruct (sanitizeGroup GenerateUUID i g) as [g1 i1] eqn:Hsg.
  match type of Hrun with
  | (let '(_, _) := ?s in _) = _ => destruct s as [a1 i2] eqn:Hsa
  end.
  injection Hrun as <- <-.
  assert (same_data i2 i) as Hsame.
  { apply sanitizeGroup_same_data in Hsg. apply sanitizeGroupAlias_same_data in Hsa.
    destruct Hsg as (? & ? & ?), Hsa as (? & ? & ?). split_and!; congruence. }
  right.
  destruct ga as [a|]; simpl in Hchosen.
  - match type of Hchosen with
    | (if ?c then _ else _) = _ => destruct c; [done|]
    end.
    destruct (memDBGroupByAliasID i (Alias.ID a)) as [E|] eqn:HE; [|done].
    destruct group as [G'|].
    + assert (Get d "group_id" ≠ "" ∧ ∃ G, memDBGroupByID i (Get d "group_id") = Some G ∧
              G' = clone G) as (Hgid & G & HG & ->).
      { destruct (decide _) as [Hgid|]; [|done].
        destruct (memDBGroupByID _ _) as [G|]; [|done]. split; [done|].
        exists G. by simplify_eq. }
      simpl in Hchosen.
      destruct (decide (Group.ID G ≠ Group.ID E)) as [Hne|].
      * right. injection Hchosen as <- <- <-. simpl.
        exists a, E, G, i2. eexists _, _, _, _. split_and!; done.
      * left. injection Hchosen as <- <- <-. simpl.
        exists i2. eexists _, _, _. split_and!; done.
    + left. injection Hchosen as <- <- <-. simpl.
      exists i2. eexists _, _, _. split_and!; done.
  - left. destruct (memDBGroupAliasByFactors i _ _); [done|].
    destruct group; injection Hchosen as <- <- <-; simpl;
      exists i2; eexists _, _, _; split_and!; done.
Qed.

End Shapes.

Section Outcome_proofs.

Variable GenerateUUID : nat → string.
Variable Sprintf_q : string → string.

(** In a consistent store the handler stops with an error or writes in one
    of the four ways of [commits]. *)
Lemma handleGroupAliasUpdateCommon_commits i d ga r i' :
  wf GenerateUUID i →
  handleGroupAliasUpdateCommon GenerateUUID Sprintf_q i d ga = (r, i') →
  rejected i i' r ∨ commits GenerateUUID Sprintf_q i d ga r i'.
Proof.
  intros Hwf Hrun. pose proof Hwf as [Hok Hfresh].
  unfold handleGroupAliasUpdateCommon in Hrun.
  match type of Hrun with
  | match ?g with _ => _ end = _ => destruct g as [r0|group] eqn:Hgroup
  end.
  { left. split; [congruence|]. left. exists "invalid group ID".
    destruct (decide _); [|done].
    destruct (memDBGroupByID _ _); simplify_eq. done. }
  assert ((group = None ∧ Get d "group_id" = "") ∨
          ∃ G, group = Some (clone G) ∧ Get d "group_id" = Group.ID G ∧
               db i !! Group.ID G = Some G ∧ Group.ID G ≠ "")
    as Hgrp.
  { destruct (decide _) as [Hgid|Hgid].
    - destruct (memDBGroupByID _ _) as [G|] eqn:HG; [|done].
      right. exists G. unfold memDBGroupByID in HG.
      destruct (ok_key _ Hok _ _ HG) as [HGid _]. rewrite HGid. by simplify_eq.
    - left. split; [congruence|]. by destruct (decide (Get d "group_id" = "")). }
  clear Hgroup.
  destruct (decide (Get d "name" = "")) as [|Hname]; [returns_early|].
  destruct (decide (Get d "mount_accessor" = "")) as [|Hacc]; [returns_early|].
  destruct (validateMountAccessorFunc i _) as [mnt|] eqn:Hmnt; [|returns_early].
  destruct ga as [a|]; simpl in Hrun.
  - match type of Hrun with
    | match (if ?c then _ else _) with _ => _ end = _ => destruct c eqn:Hchk
    end; [returns_early|].
    destruct (memDBGroupByAliasID i (Alias.ID a)) as [E|] eqn:HE; cycle 1.
    { left. split; [congruence|]. right. eexists. by simplify_eq. }
    apply memDBGroupByAliasID_Some in HE as [Hx [k Hk]].
    destruct (ok_key _ Hok _ _ Hk) as [<- HEne].
    pose proof (owned_id_nonempty _ _ _ _ Hok Hk Hx) as Hane.
    destruct Hgrp as [[-> Hgid]|(G & -> & Hgid & HG & HGne)];
      [|simpl in Hrun; destruct (decide (Group.ID G ≠ Group.ID E)) as [Hmove|Hsame]].
    2: {
      unfold sanitizeGroup, sanitizeGroupAlias in Hrun. simpl in Hrun.
      rewrite !decide_False in Hrun by done. simpl in Hrun.
      rewrite deref_append, deref_deleteAliasFromGroup in Hrun.
      injection Hrun as <- <-. right.
      by apply (commits_transfer GenerateUUID Sprintf_q i d mnt a E G). }
    all: unfold sanitizeGroup, sanitizeGroupAlias in Hrun; simpl in Hrun;
      rewrite !decide_False in Hrun by done; simpl in Hrun;
      rewrite (deref_updateAliasInGroup E a) in Hrun by done;
      injection Hrun as <- <-; right;
      apply (commits_in_place GenerateUUID Sprintf_q i d mnt a E); try done.
    + by left.
    + right. rewrite Hgid. by destruct (decide (Group.ID G = Group.ID E)); [|destruct Hsame].
  - destruct (memDBGroupAliasByFactors i _ _) as [|] eqn:Hfac; [returns_early|].
    destruct Hgrp as [[-> Hgid]|(G & -> & Hgid & HG & HGne)].
    + unfold sanitizeGroup, sanitizeGroupAlias in Hrun. simpl in Hrun.
      injection Hrun as <- <-. right.
      apply (commits_new_group GenerateUUID Sprintf_q i d mnt); [done..|].
      by apply Hfresh.
    + unfold sanitizeGroup, sanitizeGroupAlias in Hrun. simpl in Hrun.
      rewrite decide_False in Hrun by done. simpl in Hrun.
      injection Hrun as <- <-. right.
      by apply (commits_in_group GenerateUUID Sprintf_q i d mnt G).
Qed.

End Outcome_proofs.

Section Responses.

Lemma registeredResponse_id x y ws resp X :
  registeredResponse x y ws = respond resp → logical.Data resp !! "id" = Some X → X = x.
Proof.
  unfold registeredResponse, respond. intros [= <-]. simpl.
  rewrite lookup_insert_eq. by intros [= <-].
Qed.

Lemma registeredResponse_group_id x y ws resp Y :
  registeredResponse x y ws = respond resp → logical.Data resp !! "group_id" = Some Y → Y = y.
Proof.
  unfold registeredResponse, respond. intros [= <-]. simpl.
  rewrite lookup_insert_ne by done. rewrite lookup_singleton_eq. by intros [= <-].
Qed.

Lemma registeredResponse_warnings x y ws resp :
  registeredResponse x y ws = respond resp → logical.Warnings resp = ws.
Proof. unfold registeredResponse, respond. by intros [= <-]. Qed.


Lemma rejected_no_warning i i' resp :
  rejected i i' (respond resp) → logical.Warnings resp = [].
Proof.
  intros [_ [[text Hr]|[e Hr]]].
  - unfold userError, respond in Hr. by injection Hr as ->.
  - by unfold fail, respond in Hr.
Qed.

End Responses.

Section Writes.

Variable GenerateUUID : nat → string.
Variable Sprintf_q : string → string.
Variable groupID : string.

(** A register request either stops with an error and the store it was
    given, or writes through [upsertGroup] with [persist] set. *)
Lemma pathGroupAliasRegister_writes i d r i' :
  pathGroupAliasRegister GenerateUUID Sprintf_q groupID i d = (r, i') →
  rejected i i' r ∨
  ∃ i0 g p x y ws, same_data i0 i ∧ i' = upsertGroup i0 g p true ∧
    r = registeredResponse x y ws.
Proof.
  assert (∀ ga, handleGroupAliasUpdateCommon GenerateUUID Sprintf_q i d ga = (r, i') →
    rejected i i' r ∨
    ∃ i0 g p x y ws, same_data i0 i ∧ i' = upsertGroup i0 g p true ∧
      r = registeredResponse x y ws) as Hcommon.
  { intros ga Hrun.
    apply handleGroupAliasUpdateCommon_shape in Hrun
      as [?|[(i0 & g & x & y & ? & ? & ?)|(a & E & G & i0 & g & p & x & y & Hrest)]].
    - by left.
    - right. by exists i0, g, None, x, y, [].
    - right. destruct Hrest as (_ & _ & _ & _ & _ & ? & ? & ?).
      by exists i0, g, (Some p), x, y,
        [transferWarning Sprintf_q (Group.ID E) (Group.ID G)]. }
  unfold pathGroupAliasRegister, pathGroupAliasIDUpdate.
  destruct (GetOk d "id"); [|by apply Hcommon].
  destruct (decide (Get d "id" = "")); [intros; returns_early|].
  destruct (memDBGroupAliasByID i groupID); [by apply Hcommon|intros; returns_early].
Qed.


(** X8 (a warning means a transfer).  A response of
    [handleGroupAliasUpdateCommon] carries a warning only when an existing
    alias was moved: the handler was given an alias, the request names a
    group, and that group is not the group that owns the alias.  The
    warning is then the transfer warning alone. *)
Theorem warning_only_on_transfer (i i' : IdentityStore) (d : FieldData)
    (ga : option Alias.t) (resp : logical.Response) :
  handleGroupAliasUpdateCommon GenerateUUID Sprintf_q i d ga = (respond resp, i') →
  logical.Warnings resp ≠ [] →
  ∃ a E G,
    ga = Some a ∧
    memDBGroupByAliasID i (Alias.ID a) = Some E ∧
    Get d "group_id" ≠ "" ∧
    memDBGroupByID i (Get d "group_id") = Some G ∧
    Group.ID G ≠ Group.ID E ∧
    logical.Warnings resp = [transferWarning Sprintf_q (Group.ID E) (Group.ID G)].
Proof.
  intros Hrun Hwarn.
  apply handleGroupAliasUpdateCommon_shape in Hrun
    as [Hrej|[(i0 & g & x & y & _ & _ & Hr)|(a & E & G & i0 & g & p & x & y & Hrest)]].
  - by apply rejected_no_warning in Hrej.
  - symmetry in Hr. by apply registeredResponse_warnings in Hr.
  - destruct Hrest as (-> & HE & Hgid & HG & Hne & _ & _ & Hr).
    exists a, E, G. split_and!; try done.
    symmetry in Hr. by apply registeredResponse_warnings in Hr.
Qed.

(** The store after a write: what was in the index stays under its key. *)
Lemma upsertGroup_db_is_Some i0 i g p k :
  same_data i0 i → is_Some (db i !! k) → is_Some (db (upsertGroup i0 g p true) !! k).
Proof.
  intros (_ & Hdb & _) Hk. unfold upsertGroup. simpl. rewrite Hdb.
  destruct p as [p|]; simpl; rewrite !lookup_insert_is_Some'; auto.
Qed.



(** X10 (no group is lost).  A group of the index is still in the index,
    under the same id, after any sequence of register requests, whatever
    the requests are. *)
Theorem groups_are_never_removed (i : IdentityStore) (ds : list FieldData) (k : string) :
  is_Some (memDBGroupByID i k) →
  is_Some (memDBGroupByID (registerAll GenerateUUID Sprintf_q groupID i ds) k).
Proof.
  unfold memDBGroupByID.
  revert i. induction ds as [|d ds IH]; intros i Hk; [done|].
  simpl. apply IH.
  destruct (pathGroupAliasRegister GenerateUUID Sprintf_q groupID i d) as [r i'] eqn:Hrun.
  apply pathGroupAliasRegister_writes in Hrun
    as [[-> _]|(i0 & g & p & x & y & ws & Hsame & -> & _)]; [done|].
  simpl. by apply (upsertGroup_db_is_Some i0 i).
Qed.

End Writes.

Section Ownership.

Variable GenerateUUID : nat → string.
Variable Sprintf_q : string → string.
Variable groupID : string.

Hypothesis GenerateUUID_inj : ∀ n n', GenerateUUID n = GenerateUUID n' → n = n'.
Hypothesis GenerateUUID_nonempty : ∀ n, GenerateUUID n ≠ "".

(** A register request, in a consistent store: an error, or one of the
    four ways to write, a create when the request has no id and an update
    of the alias found under [groupID] when it has one. *)
Lemma pathGroupAliasRegister_commits i d r i' :
  wf GenerateUUID i →
  pathGroupAliasRegister GenerateUUID Sprintf_q groupID i d = (r, i') →
  rejected i i' r ∨
  ∃ ga, commits GenerateUUID Sprintf_q i d ga r i' ∧
        (ga = None ↔ GetOk d "id" = None).
Proof.
  intros Hwf. unfold pathGroupAliasRegister, pathGroupAliasIDUpdate.
  destruct (GetOk d "id") as [id|].
  - destruct (decide (Get d "id" = "")); [intros; returns_early|].
    destruct (memDBGroupAliasByID i groupID) as [a|]; [|intros; returns_early].
    intros Hrun.
    apply (handleGroupAliasUpdateCommon_commits _ _ _ _ _ _ _ Hwf) in Hrun
      as [?|Hc]; [by left|].
    right. exists (Some a). by split.
  - intros Hrun.
    apply (handleGroupAliasUpdateCommon_commits _ _ _ _ _ _ _ Hwf) in Hrun
      as [?|Hc]; [by left|].
    right. exists None. by split.
Qed.

(** In a consistent index the group that holds an alias id is the group
    the index gives for it. *)
Lemma memDBGroupByAliasID_unique i k g x :
  db_ok (db i) → db i !! k = Some g → x ∈ Alias.ID <$> Group.Alias g →
  memDBGroupByAliasID i x = Some g.
Proof.
  intros Hok Hk Hx.
  assert (g ∈ groups (db i)) as Hg by (apply elem_of_groups; by exists k).
  destruct (head_filter_is_Some (λ g, x ∈ Alias.ID <$> Group.Alias g) _ g Hg Hx)
    as [g' Hg'].
  unfold memDBGroupByAliasID. rewrite Hg'. f_equal.
  apply (head_filter_Some (λ g, x ∈ Alias.ID <$> Group.Alias g)) in Hg' as [Hx' Hin].
  apply elem_of_groups in Hin as [k' Hk'].
  destruct (decide (k' = k)) as [->|Hne]; [congruence|].
  apply list_elem_of_fmap in Hx' as (b & -> & Hb).
  destruct (owner_others (db i) k g (Alias.ID b) b (ok_ids _ Hok) Hk Hx); [|done].
  apply elem_of_aliases. exists g'. split; [|done].
  apply elem_of_groups. exists k'. by rewrite lookup_delete_ne.
Qed.

Lemma owner_ok_insert (m : gmap string (Group.t Alias.t)) k g :
  owner_ok m →
  (∀ a, a ∈ Group.Alias g → Alias.GroupID a = Group.ID g) →
  owner_ok (<[k:=g]> m).
Proof.
  intros Hm Hg k' g' a. rewrite lookup_insert_Some.
  intros [[_ <-]|[_ Hk']]; [apply Hg|by apply (Hm k')].
Qed.

Lemma commits_owner_ok i d ga r i' :
  commits GenerateUUID Sprintf_q i d ga r i' → owner_ok (db i) → owner_ok (db i').
Proof.
  intros Hc Hown. destruct Hc as [mnt Hgid Hmnt HG|mnt G Hgid HG Hmnt
    |mnt a E Hgid HE Hx Hmnt|mnt a E G Hgid HG HE Hne Hx Hmnt]; unfold upsertGroup; simpl.
  - apply owner_ok_insert; [done|]. simpl. by intros b ->%list_elem_of_singleton.
  - apply owner_ok_insert; [done|]. simpl. by intros b ->%list_elem_of_singleton.
  - apply owner_ok_insert; [done|]. simpl.
    intros b (c & -> & Hc)%list_elem_of_fmap. case_decide; [done|].
    by apply (Hown (Group.ID E) E).
  - apply owner_ok_insert; [apply owner_ok_insert; [done|]|]; simpl.
    + intros b [Hb| ->%list_elem_of_singleton]%elem_of_app; [|done].
      by apply (Hown (Group.ID G) G).
    + intros b [_ Hb]%list_elem_of_filter. by apply (Hown (Group.ID E) E).
Qed.

(** X5 (single ownership).  When every alias of a consistent index
    carries, in its group_id, the id of the group that holds it, it is
    still so after any sequence of register requests. *)
Theorem ownership_is_kept (i : IdentityStore) (ds : list FieldData) :
  wf GenerateUUID i →
  owner_ok (db i) →
  owner_ok (db (registerAll GenerateUUID Sprintf_q groupID i ds)).
Proof.
  revert i. induction ds as [|d ds IH]; intros i Hwf Hown; [done|].
  simpl.
  destruct (pathGroupAliasRegister GenerateUUID Sprintf_q groupID i d) as [r i'] eqn:Hrun.
  assert (wf GenerateUUID i') as Hwf'.
  { pose proof (pathGroupAliasRegister_wf GenerateUUID Sprintf_q groupID
                  GenerateUUID_inj GenerateUUID_nonempty i d Hwf) as H.
    by rewrite Hrun in H. }
  apply IH; [done|].
  apply (pathGroupAliasRegister_commits _ _ _ _ Hwf) in Hrun as [[-> _]|(ga & Hc & _)];
    [done|]. by apply (commits_owner_ok i d ga r).
Qed.

(** X6 (the response names the owner).  When a register request succeeds in
    a consistent store, the group_id it returns is the id of a group of the
    index, that group holds the alias with the returned id, the index gives
    that group as the owner of the alias, and the alias carries the id of
    the group. *)
Theorem register_returns_owner (i i' : IdentityStore) (d : FieldData)
    (resp : logical.Response) (X Y : string) :
  wf GenerateUUID i →
  pathGroupAliasRegister GenerateUUID Sprintf_q groupID i d = (respond resp, i') →
  logical.Data resp !! "id" = Some X →
  logical.Data resp !! "group_id" = Some Y →
  ∃ g a,
    memDBGroupByID i' Y = Some g ∧ Group.ID g = Y ∧
    a ∈ Group.Alias g ∧ Alias.ID a = X ∧ Alias.GroupID a = Y ∧
    memDBGroupByAliasID i' X = Some g ∧
    memDBGroupAliasByID i' X = Some a.
Proof.
  intros Hwf Hrun HX HY.
  assert (wf GenerateUUID i') as [Hok' _].
  { pose proof (pathGroupAliasRegister_wf GenerateUUID Sprintf_q groupID
                  GenerateUUID_inj GenerateUUID_nonempty i d Hwf) as H.
    by rewrite Hrun in H. }
  assert (∀ g a, db i' !! Y = Some g → Group.ID g = Y → a ∈ Group.Alias g →
            Alias.ID a = X → Alias.GroupID a = Y →
            ∃ g a, memDBGroupByID i' Y = Some g ∧ Group.ID g = Y ∧
              a ∈ Group.Alias g ∧ Alias.ID a = X ∧ Alias.GroupID a = Y ∧
              memDBGroupByAliasID i' X = Some g ∧
              memDBGroupAliasByID i' X = Some a) as Hfin.
  { intros g a Hg Hgid Ha Hid Hown. exists g, a. split_and!; try done.
    - apply (memDBGroupByAliasID_unique i' Y g X Hok' Hg).
      rewrite <- Hid. by apply list_elem_of_fmap_2.
    - rewrite <- Hid. apply memDBGroupAliasByID_unique; [apply (ok_ids _ Hok')|].
      apply elem_of_aliases. exists g. split; [|done].
      apply elem_of_groups. by exists Y. }
  apply (pathGroupAliasRegister_commits _ _ _ _ Hwf) in Hrun
    as [Hrej|(ga & Hc & _)].
  { destruct (rejected_no_id _ _ _ _ Hrej HX). }
  remember (respond resp) as r eqn:Hr.
  destruct Hc as [mnt Hgid Hmnt HG|mnt G Hgid HG Hmnt
    |mnt a E Hgid HE Hx Hmnt|mnt a E G Hgid HG HE Hne Hx Hmnt];
    pose proof (registeredResponse_id _ _ _ _ _ Hr HX) as ->;
    pose proof (registeredResponse_group_id _ _ _ _ _ Hr HY) as ->;
    unfold upsertGroup in *; simpl in *.
  - eapply (Hfin _ (written d mnt _ _));
      [apply lookup_insert_eq|done| |reflexivity|reflexivity].
    by apply list_elem_of_singleton.
  - eapply (Hfin _ (written d mnt _ _));
      [apply lookup_insert_eq|done| |reflexivity|reflexivity].
    by apply list_elem_of_singleton.
  - eapply (Hfin _ (written d mnt _ _));
      [apply lookup_insert_eq|done| |reflexivity|reflexivity]. simpl.
    apply list_elem_of_fmap in Hx as (b & Hid & Hb).
    apply list_elem_of_fmap. exists b. split; [|done].
    by rewrite decide_True.
  - eapply (Hfin _ (written d mnt _ _));
      [rewrite lookup_insert_ne by done; apply lookup_insert_eq|done|
      |reflexivity|reflexivity].
    simpl. apply elem_of_app. right. by apply list_elem_of_singleton.
Qed.

(** X11 (groups are made by a create without group_id only).  In a
    consistent store a register request adds a group to the index only
    when it has no id and no group_id and succeeds; the group then is the
    one whose id the response returns.  Every other request leaves the set
    of groups as it was. *)
Theorem group_made_only_by_bare_create (i i' : IdentityStore) (d : FieldData)
    (r : result) (k : string) :
  wf GenerateUUID i →
  pathGroupAliasRegister GenerateUUID Sprintf_q groupID i d = (r, i') →
  memDBGroupByID i k = None →
  is_Some (memDBGroupByID i' k) →
  GetOk d "id" = None ∧ Get d "group_id" = "" ∧
  ∃ x, r = registeredResponse x k [].
Proof.
  unfold memDBGroupByID. intros Hwf Hrun Hno Hyes.
  apply (pathGroupAliasRegister_commits _ _ _ _ Hwf) in Hrun
    as [[-> _]|(ga & Hc & Hga)].
  { rewrite Hno in Hyes. by destruct Hyes. }
  destruct Hc as [mnt Hgid Hmnt HG|mnt G Hgid HG Hmnt
    |mnt a E Hgid HE Hx Hmnt|mnt a E G Hgid HG HE Hne Hx Hmnt];
    unfold upsertGroup in Hyes; simpl in Hyes.
  - apply lookup_insert_is_Some in Hyes as [<-|[_ Hyes]].
    + split_and!; [by apply Hga|done|by eexists].
    + rewrite Hno in Hyes. by destruct Hyes.
  - apply lookup_insert_is_Some in Hyes as [<-|[_ Hyes]]; [congruence|].
    rewrite Hno in Hyes. by destruct Hyes.
  - apply lookup_insert_is_Some in Hyes as [<-|[_ Hyes]]; [congruence|].
    rewrite Hno in Hyes. by destruct Hyes.
  - apply lookup_insert_is_Some in Hyes as [<-|[_ Hyes]]; [congruence|].
    apply lookup_insert_is_Some in Hyes as [<-|[_ Hyes]]; [congruence|].
    rewrite Hno in Hyes. by destruct Hyes.
Qed.

End Ownership.

Section Listing_properties.

Variable GenerateUUID : nat → string.
Variable Sprintf_q : string → string.
Variable groupID : string.

Hypothesis GenerateUUID_inj : ∀ n n', GenerateUUID n = GenerateUUID n' → n = n'.
Hypothesis GenerateUUID_nonempty : ∀ n, GenerateUUID n ≠ "".


(** X2 (the listing after registrations).  After any sequence of register
    requests on a consistent store the list handler lists no id twice and
    no empty id. *)
Theorem list_has_no_duplicates (i : IdentityStore) (ds : list FieldData) (d0 : FieldData) :
  wf GenerateUUID i →
  let keys := listedKeys
    (pathGroupAliasIDList (registerAll GenerateUUID Sprintf_q groupID i ds) d0) in
  NoDup keys ∧ "" ∉ keys.
Proof.
  intros Hwf keys. subst keys. rewrite listedKeys_ids.
  destruct (registerAll_wf GenerateUUID Sprintf_q groupID GenerateUUID_inj
              GenerateUUID_nonempty i ds Hwf) as [Hok _].
  split; [apply (ok_ids _ Hok)|apply (ok_ids_nonempty _ Hok)].
Qed.

(** X3 (the listing after one registration).  When a register request
    succeeds in a consistent store, the id it returns is listed
    afterwards, and every other id listed afterwards was listed before: a
    request adds at most the id it returns. *)
Theorem list_after_register (i i' : IdentityStore) (d d0 : FieldData)
    (resp : logical.Response) (X : string) :
  wf GenerateUUID i →
  pathGroupAliasRegister GenerateUUID Sprintf_q groupID i d = (respond resp, i') →
  logical.Data resp !! "id" = Some X →
  X ∈ listedKeys (pathGroupAliasIDList i' d0) ∧
  ∀ Y, Y ∈ listedKeys (pathGroupAliasIDList i' d0) →
       Y = X ∨ Y ∈ listedKeys (pathGroupAliasIDList i d0).
Proof.
  intros Hwf Hrun HX. rewrite !listedKeys_ids.
  apply (pathGroupAliasRegister_spec GenerateUUID Sprintf_q groupID GenerateUUID_inj
           GenerateUUID_nonempty _ _ _ _ Hwf) in Hrun as [Hrej|(a' & Hreg & _)].
  { destruct (rejected_no_id _ _ _ _ Hrej HX). }
  rewrite (registered_id _ _ _ _ _ _ _ Hreg HX).
  destruct Hreg as (_ & _ & _ & _ & Hrep & _).
  split.
  - apply list_elem_of_fmap_2. by apply (replaces_elem_of (db i)).
  - intros Y HY. by apply (replaces_ids (db i) (db i') a').
Qed.

End Listing_properties.

Section Frames.

Variable GenerateUUID : nat → string.
Variable Sprintf_q : string → string.

(** X13 (a new alias in a new group).  In a consistent store, a request
    without group_id that passes validation and whose mount accessor and
    name are free is registered in a group of its own: the response
    returns two identifiers drawn for the alias and the group; the group
    was not in the index and now holds the new alias alone; every other
    group is as it was; and the listing is the old one with the new id. *)
Theorem create_makes_group_of_one (i : IdentityStore) (d d0 : FieldData)
    (mnt : validateMountResponse.t) :
  wf GenerateUUID i →
  Get d "group_id" = "" →
  Get d "name" ≠ "" →
  Get d "mount_accessor" ≠ "" →
  validateMountAccessorFunc i (Get d "mount_accessor") = Some mnt →
  (∀ b, b ∈ aliases (db i) →
     Alias.factors b ≠ (validateMountResponse.MountAccessor mnt, Get d "name")) →
  let G := GenerateUUID (uuids i) in
  let X := GenerateUUID (S (uuids i)) in
  let run := handleGroupAliasUpdateCommon GenerateUUID Sprintf_q i d None in
  run.1 = registeredResponse X G [] ∧
  memDBGroupByID i G = None ∧
  memDBGroupByID run.2 G = Some (Group.mk G [written d mnt X G]) ∧
  (∀ k, k ≠ G → memDBGroupByID run.2 k = memDBGroupByID i k) ∧
  groupPacker run.2 !! G = Some (Group.mk G [written d mnt X G]) ∧
  listedKeys (pathGroupAliasIDList run.2 d0) ≡ₚ X :: listedKeys (pathGroupAliasIDList i d0).
Proof.
  intros [Hok Hfresh] Hgid Hname Hacc Hmnt Hfree G X run.
  assert (run = (registeredResponse X G [],
                 upsertGroup (set_uuids i (S (S (uuids i))))
                   (Group.mk G [written d mnt X G]) None true)) as Hrun.
  { subst run. unfold handleGroupAliasUpdateCommon.
    rewrite decide_False by (by intros []).
    rewrite decide_False by done. rewrite decide_False by done. rewrite Hmnt. simpl.
    by rewrite (proj2 (memDBGroupAliasByFactors_None i _ _) Hfree). }
  rewrite Hrun. unfold upsertGroup, memDBGroupByID. simpl.
  destruct (Hfresh (uuids i)) as [HG _]; [lia|].
  split_and!; [done|done|by rewrite lookup_insert_eq| |by rewrite lookup_insert_eq|].
  - intros k Hk. by rewrite lookup_insert_ne.
  - rewrite !listedKeys_ids. simpl. rewrite aliases_insert. simpl.
    by rewrite delete_id.
Qed.

(** X12 (an update in place).  In a consistent index, when the handler is
    given an alias with an owning group and the request names no group, or
    names that group, and takes the mount accessor and name of no other
    alias, the alias is rewritten where it is: the response returns the id
    of the alias and of its owner and carries no warning; the owner keeps
    its aliases, in their order, the one with the id of the alias now
    carrying the fields of the request; every other group is as it was;
    and the owner is written to the packed store. *)
Theorem update_in_place (i : IdentityStore) (d : FieldData) (a : Alias.t)
    (E : Group.t Alias.t) (mnt : validateMountResponse.t) :
  db_ok (db i) →
  Get d "group_id" = "" ∨ Get d "group_id" = Group.ID E →
  Get d "name" ≠ "" →
  Get d "mount_accessor" ≠ "" →
  validateMountAccessorFunc i (Get d "mount_accessor") = Some mnt →
  (∀ b, b ∈ aliases (db i) →
     Alias.factors b = (validateMountResponse.MountAccessor mnt, Get d "name") →
     Alias.ID b = Alias.ID a) →
  memDBGroupByAliasID i (Alias.ID a) = Some E →
  let a' := written d mnt (Alias.ID a) (Group.ID E) in
  let E' := Group.mk (Group.ID E)
    ((λ b, if decide (Alias.ID b = Alias.ID a) then a' else b) <$> Group.Alias E) in
  let run := handleGroupAliasUpdateCommon GenerateUUID Sprintf_q i d (Some a) in
  run.1 = registeredResponse (Alias.ID a) (Group.ID E) [] ∧
  memDBGroupByID run.2 (Group.ID E) = Some E' ∧
  Alias.ID <$> Group.Alias E' = Alias.ID <$> Group.Alias E ∧
  a' ∈ Group.Alias E' ∧
  (∀ k, k ≠ Group.ID E → memDBGroupByID run.2 k = memDBGroupByID i k) ∧
  groupPacker run.2 !! Group.ID E = Some E' ∧
  uuids run.2 = uuids i.
Proof.
  intros Hok Hgid Hname Hacc Hmnt Hfree HE a' E' run.
  destruct (memDBGroupByAliasID_Some _ _ _ HE) as [Hx [k Hk]].
  destruct (ok_key _ Hok _ _ Hk) as [<- HEne].
  pose proof (owned_id_nonempty _ _ _ _ Hok Hk Hx) as Hane.
  assert (run = (registeredResponse (Alias.ID a) (Group.ID E) [],
                 upsertGroup i E' None true)) as Hrun.
  { subst run. unfold handleGroupAliasUpdateCommon.
    assert (match memDBGroupAliasByFactors i (validateMountResponse.MountAccessor mnt)
                    (Get d "name") with
            | Some a0 => bool_decide (Alias.ID a0 ≠ Alias.ID a)
            | None => false
            end = false) as Hchk.
    { destruct (memDBGroupAliasByFactors i _ _) as [f|] eqn:Hf; [|done].
      apply memDBGroupAliasByFactors_Some in Hf as [Hff Hfin].
      apply bool_decide_eq_false. intros Hid. apply Hid. by apply Hfree. }
    destruct Hgid as [Hgid|Hgid]; rewrite Hgid.
    - rewrite decide_False by (by intros []).
      rewrite decide_False by done. rewrite decide_False by done. rewrite Hmnt. simpl.
      rewrite Hchk, HE. simpl.
      unfold sanitizeGroup, sanitizeGroupAlias. simpl.
      rewrite !decide_False by done. simpl.
      by rewrite (deref_updateAliasInGroup E a).
    - rewrite decide_True by done. unfold memDBGroupByID at 1. rewrite Hk.
      rewrite decide_False by done. rewrite decide_False by done. rewrite Hmnt. simpl.
      rewrite Hchk, HE. simpl. rewrite decide_False by (by intros []).
      unfold sanitizeGroup, sanitizeGroupAlias. simpl.
      rewrite !decide_False by done. simpl.
      by rewrite (deref_updateAliasInGroup E a). }
  rewrite Hrun. unfold upsertGroup, memDBGroupByID. simpl.
  split_and!; [done|by rewrite lookup_insert_eq| | | |by rewrite lookup_insert_eq|done].
  - rewrite <- list_fmap_compose. apply list_fmap_ext. intros _ b _. simpl.
    by destruct (decide (Alias.ID b = Alias.ID a)).
  - apply list_elem_of_fmap in Hx as (b & Hid & Hb).
    apply list_elem_of_fmap. exists b. split; [|done]. by rewrite decide_True.
  - intros k Hk'. by rewrite lookup_insert_ne.
Qed.

(** X14 (an alias without owner).  When the handler is given an alias that
    no group of the index holds, and the request passes validation and
    takes the mount accessor and name of no other alias, the handler
    returns the error [group alias is not associated with a group]: an
    error of the handler, not an error response, and the store is as it
    was. *)
Theorem update_without_owner (i : IdentityStore) (d : FieldData) (a : Alias.t)
    (mnt : validateMountResponse.t) :
  validated i d mnt →
  (∀ b, b ∈ aliases (db i) →
     Alias.factors b = (validateMountResponse.MountAccessor mnt, Get d "name") →
     Alias.ID b = Alias.ID a) →
  memDBGroupByAliasID i (Alias.ID a) = None →
  handleGroupAliasUpdateCommon GenerateUUID Sprintf_q i d (Some a) =
    (fail "group alias is not associated with a group", i) ∧
  errorText (fail "group alias is not associated with a group") = None.
Proof.
  intros (Hgrp & Hname & Hacc & Hmnt) Hfree HE. split; [|done].
  unfold handleGroupAliasUpdateCommon.
  assert (∃ group,
    (if decide (Get d "group_id" ≠ "")
     then match memDBGroupByID i (Get d "group_id") with
          | Some g => inr (Some (clone g))
          | None => inl (userError "invalid group ID")
          end
     else inr None) = inr group) as [group ->].
  { destruct (decide _) as [Hne|]; [|by eexists].
    destruct Hgrp as [?|[g ->]]; [done|by eexists]. }
  rewrite decide_False by done. rewrite decide_False by done. rewrite Hmnt. simpl.
  assert (match memDBGroupAliasByFactors i (validateMountResponse.MountAccessor mnt)
                  (Get d "name") with
          | Some a0 => bool_decide (Alias.ID a0 ≠ Alias.ID a)
          | None => false
          end = false) as ->.
  { destruct (memDBGroupAliasByFactors i _ _) as [f|] eqn:Hf; [|done].
    apply memDBGroupAliasByFactors_Some in Hf as [Hff Hfin].
    apply bool_decide_eq_false. intros Hid. apply Hid. by apply Hfree. }
  by rewrite HE.
Qed.

End Frames.

Section Deleting.

Lemma filter_all {A} (P : A → Prop) `{∀ x, Decision (P x)} (l : list A) :
  (∀ x, x ∈ l → P x) → filter P l = l.
Proof.
  induction l as [|x l IH]; intros Hall; [done|].
  rewrite filter_cons. rewrite decide_True by (apply Hall, elem_of_cons; by left).
  f_equal. apply IH. intros y Hy. apply Hall, elem_of_cons. by right.
Qed.

Lemma filter_fmap_ids (x : string) (l : list Alias.t) :
  filter (λ y, y ≠ x) (Alias.ID <$> l) = Alias.ID <$> filter (λ b, Alias.ID b ≠ x) l.
Proof.
  induction l as [|b l IH]; [done|]. csimpl. rewrite !filter_cons.
  destruct (decide (Alias.ID b ≠ x)); csimpl; by rewrite IH.
Qed.

(** A lookup by id in a list and in what is left of it when the members
    with another id are taken out. *)
Lemma lookup_after_filter (x y : string) (l l' : list Alias.t) :
  NoDup (Alias.ID <$> l) → l' ≡ₚ filter (λ b, Alias.ID b ≠ x) l → y ≠ x →
  head (filter (λ b, Alias.ID b = y) l') = head (filter (λ b, Alias.ID b = y) l).
Proof.
  intros Hnd Hl' Hne.
  assert (NoDup (Alias.ID <$> l')) as Hnd'.
  { rewrite Hl'. apply (submseteq_NoDup _ (Alias.ID <$> l)); [|done].
    apply fmap_submseteq, sublist_submseteq, sublist_filter. }
  destruct (head (filter (λ b, Alias.ID b = y) l)) as [b|] eqn:Hb.
  - apply (head_filter_Some (λ b, Alias.ID b = y)) in Hb as [<- Hb].
    apply (head_filter_key Alias.ID l' b Hnd').
    rewrite Hl'. by apply list_elem_of_filter.
  - apply (head_filter_None (λ b, Alias.ID b = y)). intros c Hc.
    apply (proj1 (head_filter_None (λ b, Alias.ID b = y) l) Hb).
    rewrite Hl' in Hc. by apply list_elem_of_filter in Hc as [_ Hc].
Qed.

Lemma deleteGroupAlias_aliases i x :
  db_ok (db i) →
  aliases (db (deleteGroupAlias i x).2) ≡ₚ filter (λ b, Alias.ID b ≠ x) (aliases (db i)) ∧
  ∀ k, is_Some (db i !! k) → is_Some (db (deleteGroupAlias i x).2 !! k).
Proof.
  intros Hok. unfold deleteGroupAlias.
  destruct (memDBGroupAliasByID i x) as [a|] eqn:Ha.
  - apply memDBGroupAliasByID_Some in Ha as [<- Hin].
    destruct (memDBGroupByAliasID_is_Some i a Hin) as [E HE]. rewrite HE.
    destruct (memDBGroupByAliasID_Some _ _ _ HE) as [Hx [k Hk]].
    destruct (ok_key _ Hok _ _ Hk) as [<- _].
    rewrite deref_deleteAliasFromGroup. unfold upsertGroup. simpl. split.
    + rewrite aliases_insert. simpl.
      rewrite (aliases_lookup (db i) (Group.ID E) E Hk).
      rewrite filter_app.
      rewrite (filter_all _ (aliases (delete (Group.ID E) (db i)))); [done|].
      intros b Hb. by apply (owner_others (db i) (Group.ID E) E _ b (ok_ids _ Hok)).
    + intros k' Hk'. rewrite lookup_insert_is_Some'. by right.
  - simpl. split; [|done]. symmetry. rewrite filter_all; [done|].
    intros b Hb Hid. apply memDBGroupAliasByID_None in Ha. apply Ha.
    rewrite <- Hid. by apply list_elem_of_fmap_2.
Qed.

(** X4 (after a delete).  With [deleteGroupAlias] as modelled, in a
    consistent index: once a non-empty id is deleted, reading it finds
    nothing, reading any other id returns what it returned before, the
    listing is the old one without that id, and no group has left the
    index. *)
Theorem delete_then_read_and_list (i : IdentityStore) (d d0 : FieldData) :
  db_ok (db i) →
  Get d "id" ≠ "" →
  let i1 := (pathAliasIDDelete i d).2 in
  pathGroupAliasIDRead i1 d = nothing ∧
  (∀ d', Get d' "id" ≠ Get d "id" →
     pathGroupAliasIDRead i1 d' = pathGroupAliasIDRead i d') ∧
  listedKeys (pathGroupAliasIDList i1 d0) ≡ₚ
    filter (λ y, y ≠ Get d "id") (listedKeys (pathGroupAliasIDList i d0)) ∧
  ∀ k, is_Some (memDBGroupByID i k) → is_Some (memDBGroupByID i1 k).
Proof.
  intros Hok Hid i1.
  assert (i1 = (deleteGroupAlias i (Get d "id")).2) as ->.
  { subst i1. unfold pathAliasIDDelete. rewrite decide_False by done.
    by destruct (deleteGroupAlias i (Get d "id")). }
  destruct (deleteGroupAlias_aliases i (Get d "id") Hok) as [Hperm Hkeep].
  assert (∀ y, y ≠ Get d "id" →
    memDBGroupAliasByID (deleteGroupAlias i (Get d "id")).2 y = memDBGroupAliasByID i y)
    as Hother.
  { intros y Hy. by apply (lookup_after_filter (Get d "id") y _ _ (ok_ids _ Hok)). }
  split_and!; [| | |done].
  - unfold pathGroupAliasIDRead. rewrite decide_False by done.
    assert (memDBGroupAliasByID (deleteGroupAlias i (Get d "id")).2 (Get d "id") = None)
      as ->; [|done].
    apply memDBGroupAliasByID_None. rewrite Hperm.
    intros (b & Hb & Hin)%list_elem_of_fmap.
    apply list_elem_of_filter in Hin as [Hne _]. by destruct Hne.
  - intros d' Hd'. unfold pathGroupAliasIDRead.
    destruct (decide (Get d' "id" = "")); [done|]. by rewrite Hother.
  - rewrite !listedKeys_ids, Hperm. by rewrite filter_fmap_ids.
Qed.

End Deleting.

Section Create_in_group.

Variable GenerateUUID : nat → string.
Variable Sprintf_q : string → string.

(** X15 (a new alias in a named group).  In a consistent store, a request
    without alias that names an existing group, passes validation and whose
    mount accessor and name are free succeeds without warning and draws one
    identifier, for the alias; afterwards the group holds the new alias
    and nothing else: the aliases it held are listed no more and reading
    them finds nothing.  Every other group is as it was. *)
Theorem create_in_group_replaces_aliases (i : IdentityStore) (d d0 : FieldData)
    (mnt : validateMountResponse.t) (G : Group.t Alias.t) :
  wf GenerateUUID i →
  Get d "group_id" = Group.ID G →
  memDBGroupByID i (Group.ID G) = Some G →
  Get d "name" ≠ "" →
  Get d "mount_accessor" ≠ "" →
  validateMountAccessorFunc i (Get d "mount_accessor") = Some mnt →
  (∀ b, b ∈ aliases (db i) →
     Alias.factors b ≠ (validateMountResponse.MountAccessor mnt, Get d "name")) →
  let X := GenerateUUID (uuids i) in
  let run := handleGroupAliasUpdateCommon GenerateUUID Sprintf_q i d None in
  run.1 = registeredResponse X (Group.ID G) [] ∧
  uuids run.2 = S (uuids i) ∧
  memDBGroupByID run.2 (Group.ID G) =
    Some (Group.mk (Group.ID G) [written d mnt X (Group.ID G)]) ∧
  (∀ b, b ∈ Group.Alias G →
     (Alias.ID b ∉ listedKeys (pathGroupAliasIDList run.2 d0)) ∧
     memDBGroupAliasByID run.2 (Alias.ID b) = None) ∧
  (∀ k, k ≠ Group.ID G → memDBGroupByID run.2 k = memDBGroupByID i k).
Proof.
  intros [Hok Hfresh] Hgid HG Hname Hacc Hmnt Hfree X run.
  unfold memDBGroupByID in HG.
  destruct (ok_key _ Hok _ _ HG) as [_ HGne].
  assert (run = (registeredResponse X (Group.ID G) [],
                 upsertGroup (set_uuids i (S (uuids i)))
                   (Group.mk (Group.ID G) [written d mnt X (Group.ID G)]) None true))
    as Hrun.
  { subst run. unfold handleGroupAliasUpdateCommon. rewrite Hgid.
    rewrite decide_True by done. unfold memDBGroupByID at 1. rewrite HG.
    rewrite decide_False by done. rewrite decide_False by done. rewrite Hmnt. simpl.
    rewrite (proj2 (memDBGroupAliasByFactors_None i _ _) Hfree).
    unfold sanitizeGroup, sanitizeGroupAlias. simpl.
    by rewrite decide_False by done. }
  rewrite Hrun. unfold upsertGroup, memDBGroupByID. simpl.
  split_and!; [done|done|by rewrite lookup_insert_eq| |].
  - intros b Hb.
    assert (Alias.ID b ∉ Alias.ID <$>
              aliases (<[Group.ID G:=Group.mk (Group.ID G) [written d mnt X (Group.ID G)]]>
                         (db i))) as Hno.
    { rewrite aliases_insert. simpl. intros Hin.
      apply elem_of_cons in Hin as [Hid|Hin].
      - destruct (Hfresh (uuids i)) as [_ HX]; [lia|]. apply HX.
        fold X. rewrite <- Hid. apply list_elem_of_fmap_2.
        apply elem_of_aliases. exists G. split; [|done].
        apply elem_of_groups. by exists (Group.ID G).
      - apply list_elem_of_fmap in Hin as (c & Hid & Hc).
        apply (owner_others (db i) (Group.ID G) G (Alias.ID b) c (ok_ids _ Hok) HG);
          [by apply list_elem_of_fmap_2|done|done]. }
    split; [by rewrite listedKeys_ids|by apply memDBGroupAliasByID_None].
  - intros k Hk. by rewrite lookup_insert_ne.
Qed.

End Create_in_group.

(** ** The further theorems at work *)

Lemma wf_store1 : wf Scenario.uuid Scenario.store1.
Proof.
  split; [apply db_ok_store1|].
  intros n _. rewrite aliases_store1. simpl. split.
  - by apply lookup_singleton_ne.
  - rewrite list_elem_of_singleton. done.
Qed.


(** [alice] of group [g1] is registered again with [group_id] [g2]: the
    response carries a warning. *)
Lemma warning_only_on_transfer_witness :
  let d := Scenario.request
    [("name", "alice"); ("mount_accessor", "auth_userpass_1234"); ("group_id", "g2")] in
  let resp := logical.mkResponse {[ "id" := "a1"; "group_id" := "g2" ]}
    ["group alias is being transferred from group 'g1' to 'g2'"] in
  ∃ a E G,
    Some Scenario.alice = Some a ∧
    memDBGroupByAliasID Scenario.store2 (Alias.ID a) = Some E ∧
    Get d "group_id" ≠ "" ∧
    memDBGroupByID Scenario.store2 (Get d "group_id") = Some G ∧
    Group.ID G ≠ Group.ID E ∧
    logical.Warnings resp = [transferWarning Scenario.quote (Group.ID E) (Group.ID G)].
Proof.
  intros d resp.
  apply (warning_only_on_transfer Scenario.uuid Scenario.quote Scenario.store2
           (handleGroupAliasUpdateCommon Scenario.uuid Scenario.quote Scenario.store2 d
              (Some Scenario.alice)).2
           d (Some Scenario.alice) resp).
  - by vm_compute.
  - done.
Defined.


(** Group [g1] after [bob] is registered in it and a request without a
    name is turned down. *)
Lemma groups_are_never_removed_witness :
  let j := registerAll Scenario.uuid Scenario.quote Scenario.groupID
             Scenario.store1 [Scenario.register_bob_in_g1; Scenario.request []] in
  is_Some (memDBGroupByID j "g1").
Proof.
  intros j.
  apply (groups_are_never_removed Scenario.uuid Scenario.quote Scenario.groupID
           Scenario.store1 [Scenario.register_bob_in_g1; Scenario.request []] "g1").
  by eexists.
Defined.

(** [alice] is registered in the empty store, twice. *)
Lemma ownership_is_kept_witness :
  let j := registerAll Scenario.uuid Scenario.quote Scenario.groupID
             Scenario.empty_store [Scenario.register_alice; Scenario.register_alice] in
  owner_ok (db j).
Proof.
  intros j.
  apply (ownership_is_kept Scenario.uuid Scenario.quote Scenario.groupID
           uuid_inj uuid_nonempty Scenario.empty_store
           [Scenario.register_alice; Scenario.register_alice]).
  - apply wf_empty_store.
  - intros k g a Hk. simpl in Hk. by rewrite lookup_empty in Hk.
Defined.

(** Registering [alice] in the empty store returns the alias id [ui] and
    the group id [u]. *)
Lemma register_returns_owner_witness :
  let i' := (Scenario.register Scenario.empty_store Scenario.register_alice).2 in
  ∃ g a,
    memDBGroupByID i' "u" = Some g ∧ Group.ID g = "u" ∧
    a ∈ Group.Alias g ∧ Alias.ID a = "ui" ∧ Alias.GroupID a = "u" ∧
    memDBGroupByAliasID i' "ui" = Some g ∧
    memDBGroupAliasByID i' "ui" = Some a.
Proof.
  intros i'.
  apply (register_returns_owner Scenario.uuid Scenario.quote Scenario.groupID
           uuid_inj uuid_nonempty Scenario.empty_store i' Scenario.register_alice
           (logical.mkResponse {[ "id" := "ui"; "group_id" := "u" ]} []) "ui" "u").
  - apply wf_empty_store.
  - by vm_compute.
  - by vm_compute.
  - by vm_compute.
Defined.

(** Registering [alice] in the empty store makes the group [u]. *)
Lemma group_made_only_by_bare_create_witness :
  let run := Scenario.register Scenario.empty_store Scenario.register_alice in
  GetOk Scenario.register_alice "id" = None ∧
  Get Scenario.register_alice "group_id" = "" ∧
  ∃ x, run.1 = registeredResponse x "u" [].
Proof.
  intros run.
  apply (group_made_only_by_bare_create Scenario.uuid Scenario.quote Scenario.groupID
           Scenario.empty_store run.2 Scenario.register_alice run.1 "u").
  - apply wf_empty_store.
  - by vm_compute.
  - done.
  - vm_compute. by eexists.
Defined.


(** The listing after [alice] is registered twice. *)
Lemma list_has_no_duplicates_witness :
  let keys := listedKeys
    (pathGroupAliasIDList
       (registerAll Scenario.uuid Scenario.quote Scenario.groupID Scenario.empty_store
          [Scenario.register_alice; Scenario.register_alice])
       (Scenario.request [])) in
  NoDup keys ∧ "" ∉ keys.
Proof.
  apply (list_has_no_duplicates Scenario.uuid Scenario.quote Scenario.groupID
           uuid_inj uuid_nonempty Scenario.empty_store
           [Scenario.register_alice; Scenario.register_alice] (Scenario.request [])).
  apply wf_empty_store.
Defined.

(** The listing after [alice] is registered in the empty store. *)
Lemma list_after_register_witness :
  let i' := (Scenario.register Scenario.empty_store Scenario.register_alice).2 in
  let d0 := Scenario.request [] in
  "ui" ∈ listedKeys (pathGroupAliasIDList i' d0) ∧
  ∀ Y, Y ∈ listedKeys (pathGroupAliasIDList i' d0) →
       Y = "ui" ∨ Y ∈ listedKeys (pathGroupAliasIDList Scenario.empty_store d0).
Proof.
  intros i' d0.
  apply (list_after_register Scenario.uuid Scenario.quote Scenario.groupID
           uuid_inj uuid_nonempty Scenario.empty_store i' Scenario.register_alice d0
           (logical.mkResponse {[ "id" := "ui"; "group_id" := "u" ]} []) "ui").
  - apply wf_empty_store.
  - by vm_compute.
  - by vm_compute.
Defined.

(** [alice] is registered in the empty store. *)
Lemma create_makes_group_of_one_witness :
  let d0 := Scenario.request [] in
  let alice' := Alias.mk "ui" "alice" "userpass" "auth_userpass_1234" "u" in
  let run := handleGroupAliasUpdateCommon Scenario.uuid Scenario.quote Scenario.empty_store
               Scenario.register_alice None in
  run.1 = registeredResponse "ui" "u" [] ∧
  memDBGroupByID Scenario.empty_store "u" = None ∧
  memDBGroupByID run.2 "u" = Some (Group.mk "u" [alice']) ∧
  (∀ k, k ≠ "u" → memDBGroupByID run.2 k = memDBGroupByID Scenario.empty_store k) ∧
  groupPacker run.2 !! "u" = Some (Group.mk "u" [alice']) ∧
  listedKeys (pathGroupAliasIDList run.2 d0) ≡ₚ
    "ui" :: listedKeys (pathGroupAliasIDList Scenario.empty_store d0).
Proof.
  intros d0 alice' run.
  apply (create_makes_group_of_one Scenario.uuid Scenario.quote Scenario.empty_store
           Scenario.register_alice d0
           (validateMountResponse.mk "auth_userpass_1234" "userpass")).
  - apply wf_empty_store.
  - done.
  - done.
  - done.
  - done.
  - intros b Hb. simpl in Hb. rewrite aliases_empty in Hb. by apply elem_of_nil in Hb.
Defined.

(** [alice] of group [g1] is renamed to [alicia]. *)
Lemma update_in_place_witness :
  let d := Scenario.request [("name", "alicia"); ("mount_accessor", "auth_userpass_1234")] in
  let alicia := Alias.mk "a1" "alicia" "userpass" "auth_userpass_1234" "g1" in
  let run := handleGroupAliasUpdateCommon Scenario.uuid Scenario.quote Scenario.store1 d
               (Some Scenario.alice) in
  run.1 = registeredResponse "a1" "g1" [] ∧
  memDBGroupByID run.2 "g1" = Some (Group.mk "g1" [alicia]) ∧
  Alias.ID <$> [alicia] = Alias.ID <$> [Scenario.alice] ∧
  alicia ∈ [alicia] ∧
  (∀ k, k ≠ "g1" → memDBGroupByID run.2 k = memDBGroupByID Scenario.store1 k) ∧
  groupPacker run.2 !! "g1" = Some (Group.mk "g1" [alicia]) ∧
  uuids run.2 = uuids Scenario.store1.
Proof.
  intros d alicia run.
  apply (update_in_place Scenario.uuid Scenario.quote Scenario.store1 d Scenario.alice
           Scenario.g1 (validateMountResponse.mk "auth_userpass_1234" "userpass")).
  - apply db_ok_store1.
  - by left.
  - done.
  - done.
  - done.
  - intros b Hb _. rewrite aliases_store1 in Hb.
    apply list_elem_of_singleton in Hb. by subst b.
  - by vm_compute.
Defined.

(** An alias [zz] that no group of the store of [alice] holds is handed to
    the handler. *)
Lemma update_without_owner_witness :
  let d := Scenario.request [("name", "carol"); ("mount_accessor", "auth_userpass_1234")] in
  let stray := Alias.mk "zz" "carol" "userpass" "auth_userpass_1234" "g9" in
  handleGroupAliasUpdateCommon Scenario.uuid Scenario.quote Scenario.store1 d (Some stray) =
    (fail "group alias is not associated with a group", Scenario.store1) ∧
  errorText (fail "group alias is not associated with a group") = None.
Proof.
  intros d stray.
  apply (update_without_owner Scenario.uuid Scenario.quote Scenario.store1 d stray
           (validateMountResponse.mk "auth_userpass_1234" "userpass")).
  - split_and!; [by left|done..].
  - intros b Hb Hf. rewrite aliases_store1 in Hb.
    apply list_elem_of_singleton in Hb. by subst b.
  - by vm_compute.
Defined.

(** [alice] is deleted from the store of [alice]. *)
Lemma delete_then_read_and_list_witness :
  let d := Scenario.request [("id", "a1")] in
  let d0 := Scenario.request [] in
  let i1 := (pathAliasIDDelete Scenario.store1 d).2 in
  pathGroupAliasIDRead i1 d = nothing ∧
  (∀ d', Get d' "id" ≠ Get d "id" →
     pathGroupAliasIDRead i1 d' = pathGroupAliasIDRead Scenario.store1 d') ∧
  listedKeys (pathGroupAliasIDList i1 d0) ≡ₚ
    filter (λ y, y ≠ Get d "id") (listedKeys (pathGroupAliasIDList Scenario.store1 d0)) ∧
  ∀ k, is_Some (memDBGroupByID Scenario.store1 k) → is_Some (memDBGroupByID i1 k).
Proof.
  intros d d0.
  apply (delete_then_read_and_list Scenario.store1 d d0).
  - apply db_ok_store1.
  - done.
Defined.

(** [bob] is registered in the group [g1] of [alice]. *)
Lemma create_in_group_replaces_aliases_witness :
  let d0 := Scenario.request [] in
  let bob := Alias.mk "u" "bob" "userpass" "auth_userpass_1234" "g1" in
  let run := handleGroupAliasUpdateCommon Scenario.uuid Scenario.quote Scenario.store1
               Scenario.register_bob_in_g1 None in
  run.1 = registeredResponse "u" "g1" [] ∧
  uuids run.2 = 1 ∧
  memDBGroupByID run.2 "g1" = Some (Group.mk "g1" [bob]) ∧
  (∀ b, b ∈ [Scenario.alice] →
     (Alias.ID b ∉ listedKeys (pathGroupAliasIDList run.2 d0)) ∧
     memDBGroupAliasByID run.2 (Alias.ID b) = None) ∧
  (∀ k, k ≠ "g1" → memDBGroupByID run.2 k = memDBGroupByID Scenario.store1 k).
Proof.
  intros d0 bob run.
  apply (create_in_group_replaces_aliases Scenario.uuid Scenario.quote Scenario.store1
           Scenario.register_bob_in_g1 d0
           (validateMountResponse.mk "auth_userpass_1234" "userpass") Scenario.g1).
  - apply wf_store1.
  - done.
  - done.
  - done.
  - done.
  - done.
  - intros b Hb. rewrite aliases_store1 in Hb.
    apply list_elem_of_singleton in Hb. by subst b.
Defined.
